(** * Chat canvas layout engine: grid utilities, occupancy, slot finding,
      the placement pass and the overlap resolver.

    The JavaScript sources embedded here are
      - constants.js, utils/grid.js, utils/thread.js
      - layout/placement.js, layout/resolveOverlaps.js
      - the placement effect and the geometry helpers of ChatCanvas.jsx.

    Numbers.  JavaScript numbers are modelled as exact rationals [Q].  Every
    quantity that the layout code handles is a pixel count, half a pixel
    count (from [w / 2]) or a cell index, where double precision arithmetic
    is exact; NaN and the infinities are outside the model.  Results of
    [Math.floor], [Math.ceil] and [Math.round] are typed [Z].  Numeric
    results are compared with [==] (equality of rationals).

    Nullable fields ([x], [y], [parentId]) are options.  Identifiers are the
    strings produced by [addMessage]; the truthiness test that the code
    applies to [parentId] is [truthy]. *)

From Stdlib Require Import ZArith QArith Qround Qabs Lia Lqa Sorted.
From stdpp Require Import base option list strings gmap.

Local Open Scope Q_scope.

(** ** JavaScript numeric primitives *)

Module Math.

Definition floor (q : Q) : Z := Qfloor q.
Definition ceil (q : Q) : Z := Qceiling q.
(** [Math.round] rounds to the nearest integer, ties towards +infinity. *)
Definition round (q : Q) : Z := Qfloor (q + (1 # 2)).
Definition max (a b : Q) : Q := if Qle_bool a b then b else a.
Definition min (a b : Q) : Q := if Qle_bool a b then a else b.
Definition abs (q : Q) : Q := Qabs q.

End Math.

(** Strict comparison of numbers, [a < b]. *)
Definition Qlt_bool (a b : Q) : bool := negb (Qle_bool b a).

(** [v ?? d] on a nullable number. *)
Definition orElse (v : option Q) (d : Q) : Q :=
  match v with Some q => q | None => d end.

(** ** constants.js *)

Definition GRID : Q := 20.
Definition GAP : Q := 64.
Definition SIDE_GAP : Q := 128.
Definition PADDING : Q := 28.
Definition EDGE_PADDING : Q := 80.
Definition MAX_SCAN : Z := 500.
Definition MAX_RESOLVE_PASSES : nat := 8.

Definition gapCells : Z := Z.max 1 (Math.round (GAP / GRID)).
Definition padCells : Z := Z.max 1 (Math.round (PADDING / GRID)).
Definition leftEdgeCol : Z := Math.ceil (EDGE_PADDING / GRID).
Definition sideGapCells : Z := Z.max 1 (Math.round (SIDE_GAP / GRID)).

(** ** utils/grid.js *)

Definition clamp (n lo hi : Q) : Q := Math.max lo (Math.min hi n).
Definition snap (n : Q) : Q := inject_Z (Math.round (n / GRID)) * GRID.
Definition toCol (x : Q) : Z := Math.floor (x / GRID).
Definition toRow (y : Q) : Z := Math.floor (y / GRID).
Definition fromCol (c : Z) : Q := inject_Z c * GRID.
Definition fromRow (r : Z) : Q := inject_Z r * GRID.

(** A coordinate is on the grid when it is an integer multiple of [GRID]. *)
Definition onGrid (q : Q) : Prop := exists k : Z, q == inject_Z k * GRID.

(** ** Messages *)

Record Message : Type := mkMessage {
  id : string;
  parentId : option string;
  threadId : option string;
  isThread : bool;
  senderId : string;
  text : string;
  timestamp : string;
  x : option Q;
  y : option Q
}.

(** [{ ...m, x: nx }] and [{ ...m, y: ny }]. *)
Definition withX (m : Message) (nx : Q) : Message :=
  mkMessage (id m) (parentId m) (threadId m) (isThread m) (senderId m)
            (text m) (timestamp m) (Some nx) (y m).
Definition withY (m : Message) (ny : Q) : Message :=
  mkMessage (id m) (parentId m) (threadId m) (isThread m) (senderId m)
            (text m) (timestamp m) (x m) (Some ny).

(** [m.x != null && m.y != null]. *)
Definition placed (m : Message) : bool :=
  match x m, y m with Some _, Some _ => true | _, _ => false end.

(** JavaScript truthiness of an identifier: neither null nor empty. *)
Definition truthy (p : option string) : bool :=
  match p with
  | Some s => if String.eqb s "" then false else true
  | None => false
  end.
Global Arguments truthy : simpl never.

(** ** utils/thread.js *)

(** [new Map(messages.map(x => [x.id, x]))]: entries are set in list order,
    a later message with the same id replaces an earlier one. *)
Definition idToMsg (msgs : list Message) : gmap string Message :=
  foldl (fun M m => <[id m := m]> M) ∅ msgs.

(** The loop [while (cur?.parentId) cur = idToMsg.get(cur.parentId)].
    [None] as a result means that the iteration budget ran out; [Some cur]
    is the value of [cur] when the loop exits. *)
Fixpoint climb (M : gmap string Message) (fuel : nat) (cur : option Message)
  : option (option Message) :=
  match cur with
  | None => Some None
  | Some m =>
      match parentId m with
      | Some p =>
          if truthy (Some p) then
            match fuel with
            | O => None
            | S fuel' => climb M fuel' (M !! p)
            end
          else Some cur
      | None => Some cur
      end
  end.

(** [cur?.id ?? id]. *)
Definition idOrDefault (cur : option Message) (i : string) : string :=
  match cur with Some m => id m | None => i end.

(** [getRootIdOf] with an explicit iteration budget. *)
Definition getRootIdOfFuel (fuel : nat) (msgs : list Message) (i : string)
  : option string :=
  let M := idToMsg msgs in
  match climb M fuel (M !! i) with
  | Some cur => Some (idOrDefault cur i)
  | None => None
  end.

(** [getRootIdOf(messagesRef, id)].  One iteration per message is enough on
    every list whose parent pointers are acyclic (see [climb_bound]). *)
Definition getRootIdOf (msgs : list Message) (i : string) : option string :=
  getRootIdOfFuel (length msgs) msgs i.

(** ** Geometry records *)

(** Measured bubble size, [{ w, h }]. *)
Module Size.
Record t : Type := mk { w : Q; h : Q }.
End Size.

(** Pixel rectangle, [{ x, y, w, h }]. *)
Module Rect.
Record t : Type := mk { x : Q; y : Q; w : Q; h : Q }.
End Rect.

(** What the layout reads from a mounted bubble element: its offset size and
    the position of its bounding box relative to the canvas
    ([mrect.left - crect.left], [mrect.top - crect.top]). *)
Module Elem.
Record t : Type := mk { offsetWidth : Q; offsetHeight : Q; left : Q; top : Q }.
End Elem.

(** Grid rectangle, [{ id, col, row, spanX, spanY }]; the probe built by
    [isFreeRect] carries no id. *)
Module Cell.
Record t : Type := mk { id : option string; col : Z; row : Z; spanX : Z; spanY : Z }.
End Cell.

Inductive Side : Type := SideLeft | SideRight | SideBelow.

(** Result of a slot finder, [{ x, y, side }]. *)
Module Pos.
Record t : Type := mk { x : Q; y : Q; side : Side }.
End Pos.

(** ** The view state that the layout reads *)

Record View : Type := mkView {
  bubbleSizes : gmap string Size.t;   (* bubbleSizesRef.current *)
  messageRefs : gmap string Elem.t;   (* messageRefs.current *)
  canvasMounted : bool;               (* canvasRef.current != null *)
  stageWidth : Q;                     (* stageSizeRef.current.width *)
  viewportW : Q;                      (* viewport.w *)
  viewportH : Q                       (* viewport.h *)
}.

(** [getRectFor] of ChatCanvas.jsx. *)
Definition getRectFor (v : View) (m : Message) : Rect.t :=
  let el := messageRefs v !! id m in
  let size := bubbleSizes v !! id m in
  let w := match size with
           | Some s => Size.w s
           | None => match el with Some e => Elem.offsetWidth e | None => 300 end
           end in
  let h := match size with
           | Some s => Size.h s
           | None => match el with Some e => Elem.offsetHeight e | None => 100 end
           end in
  match el with
  | Some e =>
      if canvasMounted v
      then Rect.mk (orElse (x m) (Elem.left e)) (orElse (y m) (Elem.top e)) w h
      else Rect.mk (orElse (x m) 0) (orElse (y m) 0) w h
  | None => Rect.mk (orElse (x m) 0) (orElse (y m) 0) w h
  end.

(** [getRectById] of ChatCanvas.jsx, over [messagesRef.current]. *)
Definition getRectById (v : View) (cur : list Message) (i : string) : option Rect.t :=
  match List.find (fun m => String.eqb (id m) i) cur with
  | Some msg => Some (getRectFor v msg)
  | None => None
  end.

(** [clampYNoBottom] of ChatCanvas.jsx. *)
Definition clampYNoBottom (yv : Q) : Q := snap (Math.max EDGE_PADDING yv).

(** ** layout/placement.js *)

Definition rectsOverlap (a b : Cell.t) : bool :=
  negb ((Cell.col a + Cell.spanX a <=? Cell.col b)%Z
        || (Cell.col b + Cell.spanX b <=? Cell.col a)%Z
        || (Cell.row a + Cell.spanY a <=? Cell.row b)%Z
        || (Cell.row b + Cell.spanY b <=? Cell.row a)%Z).

(** [Math.max(1, Math.ceil((n + PADDING) / GRID))], the padded span in cells. *)
Definition spanOf (n : Q) : Z := Z.max 1 (Math.ceil ((n + PADDING) / GRID)).

Definition getMsgGridRect (getRect : Message -> Rect.t) (m : Message) : Cell.t :=
  let r := getRect m in
  let col := Z.max leftEdgeCol (toCol (Rect.x r) - padCells) in
  let row := Z.max leftEdgeCol (toRow (Rect.y r)) in
  let spanX := (spanOf (Rect.w r) + padCells * 2)%Z in
  let spanY := (spanOf (Rect.h r) + padCells * 2)%Z in
  Cell.mk (Some (id m)) col row spanX spanY.

Definition buildOccupancy (cur : list Message) (getRect : Message -> Rect.t)
    (excludeIds : list string) : list Cell.t :=
  List.map (getMsgGridRect getRect)
    (List.filter
       (fun m => placed m && negb (existsb (String.eqb (id m)) excludeIds))
       cur).

Definition isFreeRect (occRects : list Cell.t) (col row spanX spanY : Z) : bool :=
  if (col <? leftEdgeCol)%Z then false
  else
    let probe := Cell.mk None (col - padCells) row
                   (spanX + padCells * 2) (spanY + padCells * 2) in
    negb (existsb (fun r => rectsOverlap r probe) occRects).

(** A counting [for] loop that returns from its body: [body] is tried at
    [start], [start + 1], ... for [n] iterations and the first result wins. *)
Fixpoint firstFrom {A : Type} (body : Z -> option A) (n : nat) (start : Z)
  : option A :=
  match n with
  | O => None
  | S n' =>
      match body start with
      | Some a => Some a
      | None => firstFrom body n' (start + 1)%Z
      end
  end.

Definition slotAt (col row : Z) (s : Side) : Pos.t :=
  Pos.mk (snap (fromCol col)) (snap (fromRow row)) s.

Definition findSideSlotOnRow (occRects : list Cell.t) (parentRect : Rect.t)
    (w h : Q) (preferSide : option Side) : option Pos.t :=
  let spanX := spanOf w in
  let spanY := spanOf h in
  let row := toRow (Rect.y parentRect) in
  let parentLeftCol := toCol (Rect.x parentRect) in
  let parentRightCol := toCol (Rect.x parentRect + Rect.w parentRect) in
  let startRightCol := (parentRightCol + sideGapCells)%Z in
  let startLeftCol := (parentLeftCol - sideGapCells - spanX)%Z in
  let MAX_WIDE := Z.max MAX_SCAN 200 in
  let tryRight r :=
    let right := (startRightCol + r)%Z in
    if isFreeRect occRects right row spanX spanY
    then Some (slotAt right row SideRight) else None in
  let tryLeft r :=
    let left := (startLeftCol - r)%Z in
    if (leftEdgeCol <=? left)%Z && isFreeRect occRects left row spanX spanY
    then Some (slotAt left row SideLeft) else None in
  let tryOrder r :=
    match preferSide with
    | Some SideLeft =>
        match tryLeft r with Some p => Some p | None => tryRight r end
    | _ =>
        match tryRight r with Some p => Some p | None => tryLeft r end
    end in
  firstFrom tryOrder (Z.to_nat (MAX_WIDE + 1)) 0.

(** The two columns that [findSlotBelow] probes at distance [d]. *)
Definition belowRightCol (parentRect : Rect.t) (w : Q) (d : Z) : Z :=
  (toCol (Rect.x parentRect + Rect.w parentRect / 2)
   - Math.floor (inject_Z (spanOf w) / 2) + d)%Z.
Definition belowLeftCol (parentRect : Rect.t) (w : Q) (d : Z) : Z :=
  (toCol (Rect.x parentRect + Rect.w parentRect / 2)
   - Math.floor (inject_Z (spanOf w) / 2) - d)%Z.

(** The row just below the parent, [toRow(parentRect.y + parentRect.h) + gapCells]. *)
Definition rowBelow (parentRect : Rect.t) : Z :=
  (toRow (Rect.y parentRect + Rect.h parentRect) + gapCells)%Z.

Definition belowFallback (parentRect : Rect.t) : Pos.t :=
  Pos.mk (snap (Rect.x parentRect))
         (snap (Rect.y parentRect + GAP + Rect.h parentRect)) SideBelow.

(** Body of the loop of [findSlotBelow] at distance [d]. *)
Definition belowProbe (occRects : list Cell.t) (parentRect : Rect.t)
    (w h : Q) (d : Z) : option Pos.t :=
  let spanX := spanOf w in
  let spanY := spanOf h in
  let row := rowBelow parentRect in
  let leftCol := belowLeftCol parentRect w d in
  let rightCol := belowRightCol parentRect w d in
  if (leftEdgeCol <=? rightCol)%Z && isFreeRect occRects rightCol row spanX spanY
  then Some (slotAt rightCol row SideBelow)
  else if (leftEdgeCol <=? leftCol)%Z && isFreeRect occRects leftCol row spanX spanY
  then Some (slotAt leftCol row SideBelow)
  else None.

Definition findSlotBelow (occRects : list Cell.t) (parentRect : Rect.t)
    (w h : Q) : Pos.t :=
  let maxSpread := 500%nat in
  match firstFrom (belowProbe occRects parentRect w h) maxSpread 0 with
  | Some res => res
  | None => belowFallback parentRect
  end.

(** The column that [findSlotBelowAtCenter] keeps while it drops. *)
Definition centerCol (targetCenterX w : Q) : Z :=
  Z.max leftEdgeCol (toCol (targetCenterX - w / 2)).

(** The row scan shared by [findSlotBelowAtCenter] and [findSlotBelowAtX]:
    [MAX_DROP] rows are probed at the fixed column [startCol]. *)
Definition dropScan (occRects : list Cell.t) (startCol : Z) (parentRect : Rect.t)
    (w h : Q) : option Pos.t :=
  let spanX := spanOf w in
  let spanY := spanOf h in
  let MAX_DROP := 1000%nat in
  firstFrom
    (fun row => if isFreeRect occRects startCol row spanX spanY
                then Some (slotAt startCol row SideBelow) else None)
    MAX_DROP (rowBelow parentRect).

Definition findSlotBelowAtCenter (occRects : list Cell.t) (targetCenterX : Q)
    (parentRect : Rect.t) (w h : Q) : Pos.t :=
  let startCol := centerCol targetCenterX w in
  match dropScan occRects startCol parentRect w h with
  | Some res => res
  | None => findSlotBelow occRects parentRect w h
  end.

Definition findSlotBelowAtX (occRects : list Cell.t) (targetLeftX : Q)
    (parentRect : Rect.t) (w h : Q) : Pos.t :=
  let startCol := Z.max leftEdgeCol (toCol targetLeftX) in
  match dropScan occRects startCol parentRect w h with
  | Some res => res
  | None => findSlotBelow occRects parentRect w h
  end.

Definition choosePlacement (cur : list Message) (getRect : Message -> Rect.t)
    (parentRect : Rect.t) (w h : Q) (excludeIds : list string)
    (preferSide : option Side) : Pos.t :=
  let occ := buildOccupancy cur getRect excludeIds in
  match findSideSlotOnRow occ parentRect w h preferSide with
  | Some side => side
  | None => findSlotBelow occ parentRect w h
  end.

(** ** Stage size and its setters (ChatCanvas.jsx) *)

Module Stage.
Record t : Type := mk { width : Q; height : Q }.
End Stage.

(** [ensureHeightForRect] and [ensureWidthForRect] enqueue an update of the
    stage size; they are modelled as the update itself, applied to the
    pending stage size.  [stageSizeRef.current] is not touched by them. *)
Definition ensureHeightForRect (v : View) (yv h : Q) (prev : Stage.t) : Stage.t :=
  let needed := inject_Z (Math.ceil (yv + h + EDGE_PADDING)) in
  if Qlt_bool (Stage.height prev) needed
  then Stage.mk (Stage.width prev) (Math.max needed (viewportH v))
  else prev.

Definition ensureWidthForRect (v : View) (xv w : Q) (prev : Stage.t) : Stage.t :=
  let needed := inject_Z (Math.ceil (xv + w + EDGE_PADDING)) in
  if Qlt_bool (Stage.width prev) needed
  then Stage.mk (Math.max needed (viewportW v)) (Stage.height prev)
  else prev.

(** ** layout/resolveOverlaps.js *)

(** [overlapAmount]: the pair is [(x, y)] of the returned object. *)
Definition overlapAmount (getRect : Message -> Rect.t) (a b : Message) : Q * Q :=
  let ar := getRect a in
  let br := getRect b in
  let ax2 := Rect.x ar + Rect.w ar in
  let ay2 := Rect.y ar + Rect.h ar in
  let bx2 := Rect.x br + Rect.w br in
  let by2 := Rect.y br + Rect.h br in
  (Math.max 0 (Math.min ax2 bx2 - Math.max (Rect.x ar) (Rect.x br)),
   Math.max 0 (Math.min ay2 by2 - Math.max (Rect.y ar) (Rect.y br))).

(** [a === b] on two parent ids. *)
Definition sameId (a b : option string) : bool :=
  match a, b with
  | Some s, Some t => String.eqb s t
  | None, None => true
  | _, _ => false
  end.

(** The comparator handed to [sort]:
    [(a.y ?? 0) - (b.y ?? 0) || (a.x ?? 0) - (b.x ?? 0)]. *)
Definition cmpYX (a b : Message) : Q :=
  let dy := orElse (y a) 0 - orElse (y b) 0 in
  if Qeq_bool dy 0 then orElse (x a) 0 - orElse (x b) 0 else dy.

(** [Array.prototype.sort] is stable.  [cmpYX] orders messages by the pair
    (y, x), so the sorted array is determined: it is the one that inserting
    every element in front of the first element not smaller than it builds. *)
Fixpoint insertBy (cmp : Message -> Message -> Q) (a : Message)
    (l : list Message) : list Message :=
  match l with
  | [] => [a]
  | b :: l' => if Qle_bool (cmp a b) 0 then a :: b :: l' else b :: insertBy cmp a l'
  end.

Definition sortBy (cmp : Message -> Message -> Q) (l : list Message) : list Message :=
  foldr (insertBy cmp) [] l.

Section Resolver.

(** The callbacks and the ref that [resolveOverlaps] receives.  [Fx] is the
    state that the two [ensure...] callbacks act on. *)
Context {Fx : Type}.
Variable getRectFor' : Message -> Rect.t.
Variable ensureWidthForRect' : Q -> Q -> Fx -> Fx.
Variable ensureHeightForRect' : Q -> Q -> Fx -> Fx.
Variable clampYNoBottom' : Q -> Q.
Variable stageWidth' : Q.   (* stageSizeRef.current.width *)

Definition rowTol (A : Message) : Q :=
  Math.max GRID (inject_Z (Math.floor (Rect.h (getRectFor' A) / 2))).

Definition isSiblings (A B : Message) : bool :=
  truthy (parentId A)
  && sameId (parentId A) (parentId B)
  && Qle_bool (Math.abs (Rect.y (getRectFor' A) - Rect.y (getRectFor' B)))
              (rowTol A).

(** The value of [pushDown] when the branch is taken. *)
Definition pushDown (A B : Message) (ox oy : Q) : bool :=
  let isMainA := negb (isThread A) in
  let isMainB := negb (isThread B) in
  let pd := Qle_bool ox oy || isMainA || isMainB in
  if isSiblings A B then false else pd.

(** [nb] of the push-down branch. *)
Definition pushedDown (B : Message) (oy : Q) : Message :=
  withY B (clampYNoBottom' (orElse (y B) 0 + oy + PADDING)).

(** [finalX] of the sideways branch. *)
Definition sidewaysX (A B : Message) (ox : Q) : Q :=
  let sizeB := getRectFor' B in
  let tryRight := snap (orElse (x B) 0 + ox + PADDING) in
  let tryLeft := snap (orElse (x B) 0 - (ox + PADDING)) in
  let rightFits := Qle_bool (tryRight + Rect.w sizeB + EDGE_PADDING) stageWidth' in
  let leftFits := Qle_bool EDGE_PADDING tryLeft in
  let preferRight := Qle_bool (orElse (x A) 0) (orElse (x B) 0) in
  if preferRight && rightFits then tryRight
  else if leftFits then tryLeft
  else if rightFits then tryRight
  else tryLeft.

Definition pushedSideways (A B : Message) (ox : Q) : Message :=
  withX B (sidewaysX A B ox).

(** The replacement of [B] when the pair overlaps, [None] when the pair is
    skipped (one of the two is unplaced, or there is no intersection). *)
Definition adjustPair (A B : Message) : option Message :=
  if placed A && placed B then
    let '(ox, oy) := overlapAmount getRectFor' A B in
    if Qlt_bool 0 ox && Qlt_bool 0 oy then
      if pushDown A B ox oy then Some (pushedDown B oy)
      else Some (pushedSideways A B ox)
    else None
  else None.

(** The stage update that goes with the replacement [nb] of [B]. *)
Definition adjustFx (A B nb : Message) : Fx -> Fx :=
  let '(ox, oy) := overlapAmount getRectFor' A B in
  if pushDown A B ox oy
  then ensureHeightForRect' (orElse (y nb) 0) (Rect.h (getRectFor' nb))
  else ensureWidthForRect' (orElse (x nb) 0) (Rect.w (getRectFor' nb)).

Record RState : Type := mkRState {
  updated : list Message;
  changed : bool;
  fx : Fx
}.

(** Body of the inner loop at indices [i < j]. *)
Definition pairStep (i j : nat) (st : RState) : RState :=
  match updated st !! i, updated st !! j with
  | Some A, Some B =>
      match adjustPair A B with
      | Some nb => mkRState (<[j := nb]> (updated st)) true
                            (adjustFx A B nb (fx st))
      | None => st
      end
  | _, _ => st
  end.

(** [for (j = i + 1; j < updated.length; j++)]. *)
Definition innerLoop (len i : nat) (st : RState) : RState :=
  foldl (fun s j => pairStep i j s) st (seq (S i) (len - S i)).

(** [for (i = 0; i < updated.length; i++)]. *)
Definition outerLoop (st : RState) : RState :=
  let len := length (updated st) in
  foldl (fun s i => innerLoop len i s) st (seq 0 len).

(** One resolver pass: sort, then scan all pairs. *)
Definition resolvePass (l : list Message) (s : Fx) : RState :=
  outerLoop (mkRState (sortBy cmpYX l) false s).

(** [for (pass = 0; pass < MAX_RESOLVE_PASSES; pass++)] with its [break]. *)
Fixpoint resolvePasses (n : nat) (l : list Message) (s : Fx) : list Message * Fx :=
  match n with
  | O => (l, s)
  | S n' =>
      let st := resolvePass l s in
      if changed st then resolvePasses n' (updated st) (fx st)
      else (updated st, fx st)
  end.

(** The callback of the final [updated.map]. *)
Definition normalize (m : Message) (s : Fx) : Message * Fx :=
  match x m, y m with
  | Some mx, Some my =>
      let r := getRectFor' m in
      let nx := snap (Math.max mx EDGE_PADDING) in
      let ny := clampYNoBottom' my in
      (withY (withX m nx) ny,
       ensureHeightForRect' ny (Rect.h r) (ensureWidthForRect' nx (Rect.w r) s))
  | _, _ => (m, s)
  end.

Fixpoint normalizeAll (l : list Message) (s : Fx) : list Message * Fx :=
  match l with
  | [] => ([], s)
  | m :: l' =>
      let '(m', s1) := normalize m s in
      let '(r, s2) := normalizeAll l' s1 in
      (m' :: r, s2)
  end.

(** [resolveOverlaps]: the returned list, and the state of the callbacks. *)
Definition resolveOverlaps (messages : list Message) (s : Fx) : list Message * Fx :=
  let '(upd, s1) := resolvePasses MAX_RESOLVE_PASSES messages s in
  normalizeAll upd s1.

End Resolver.

(** ** The placement pass (the layout effect of ChatCanvas.jsx) *)

Module Placement.

(** What the pass reads and writes besides the view: the working copy
    [next], the flag [changed], the two ref maps, the local copy of the
    main tails and the pending stage size. *)
Record State : Type := mkState {
  next : list Message;
  changed : bool;
  rootCenters : gmap string Q;        (* rootCentersRef.current *)
  mainTailByRoot : gmap string string; (* mainTailByRootRef.current *)
  localMainTail : gmap string string;
  stage : Stage.t
}.

Definition setNext (st : State) (l : list Message) : State :=
  mkState l true (rootCenters st) (mainTailByRoot st) (localMainTail st) (stage st).
Definition setRootCenter (st : State) (k : string) (c : Q) : State :=
  mkState (next st) (changed st) (<[k := c]> (rootCenters st))
          (mainTailByRoot st) (localMainTail st) (stage st).
Definition setMainTail (st : State) (k i : string) : State :=
  mkState (next st) (changed st) (rootCenters st)
          (<[k := i]> (mainTailByRoot st)) (localMainTail st) (stage st).
Definition setLocalTail (st : State) (k i : string) : State :=
  mkState (next st) (changed st) (rootCenters st)
          (mainTailByRoot st) (<[k := i]> (localMainTail st)) (stage st).
Definition setStage (st : State) (s : Stage.t) : State :=
  mkState (next st) (changed st) (rootCenters st)
          (mainTailByRoot st) (localMainTail st) s.

(** [sizes[id] || { w: 300, h: 100 }]. *)
Definition sizeOrDefault (v : View) (i : string) : Size.t :=
  match bubbleSizes v !! i with Some s => s | None => Size.mk 300 100 end.

Definition findById (l : list Message) (i : string) : option Message :=
  List.find (fun m => String.eqb (id m) i) l.

Definition getPlacedRectById (v : View) (cur nxt : list Message) (i : string)
  : option Rect.t :=
  match findById nxt i with
  | Some candidate =>
      match x candidate, y candidate with
      | Some cx, Some cy =>
          let size := sizeOrDefault v i in
          Some (Rect.mk cx cy (Size.w size) (Size.h size))
      | _, _ => getRectById v cur i
      end
  | None => getRectById v cur i
  end.

Definition rectsOverlapPx (a b : Rect.t) : bool :=
  negb (Qle_bool (Rect.x a + Rect.w a) (Rect.x b)
        || Qle_bool (Rect.x b + Rect.w b) (Rect.x a)
        || Qle_bool (Rect.y a + Rect.h a) (Rect.y b)
        || Qle_bool (Rect.y b + Rect.h b) (Rect.y a)).

(** The rectangles of [buildPlacedRectsExcluding]; their [id] field is
    never read and is left out. *)
Definition buildPlacedRectsExcluding (v : View) (nxt : list Message)
    (excludeId : string) : list Rect.t :=
  omap (fun m =>
          if String.eqb (id m) excludeId then None
          else match x m, y m with
               | Some mx, Some my =>
                   let sz := sizeOrDefault v (id m) in
                   Some (Rect.mk mx my (Size.w sz) (Size.h sz))
               | _, _ => None
               end) nxt.

(** One run of [for (const r of placed)] over the candidate. *)
Definition sweep (placedRects : list Rect.t) (candidate : Rect.t) : Rect.t * bool :=
  foldl (fun acc r =>
           let '(c, ch) := acc in
           if rectsOverlapPx c r
           then (Rect.mk (Rect.x c) (snap (Rect.y r + Rect.h r + GAP))
                         (Rect.w c) (Rect.h c), true)
           else (c, ch))
        (candidate, false) placedRects.

(** [while (changed && guard++ < 200)]. *)
Fixpoint stackLoop (guard : nat) (placedRects : list Rect.t) (candidate : Rect.t)
  : Rect.t :=
  match guard with
  | O => candidate
  | S g =>
      let '(c, ch) := sweep placedRects candidate in
      if ch then stackLoop g placedRects c else c
  end.

(** [stackBelowAtX]; the result is [(x, y)]. *)
Definition stackBelowAtX (v : View) (nxt : list Message) (targetLeftX : Q)
    (parentRect : Rect.t) (sizeWH : Size.t) (excludeId : string) : Q * Q :=
  let y0 := snap (Rect.y parentRect + Rect.h parentRect + GAP) in
  let placedRects := buildPlacedRectsExcluding v nxt excludeId in
  let candidate := Rect.mk (snap targetLeftX) y0 (Size.w sizeWH) (Size.h sizeWH) in
  let c := stackLoop 200 placedRects candidate in
  (Rect.x c, Rect.y c).

(** The side a new user branch prefers: siblings are counted on each side
    of the parent's center, the left side wins ties. *)
Definition preferSideFor (v : View) (cur : list Message) (m : Message)
    (pr : Rect.t) : Side :=
  let parentCenterX := Rect.x pr + Rect.w pr / 2 in
  let siblings :=
    List.filter
      (fun s => sameId (parentId s) (parentId m) && placed s
                && negb (String.eqb (id s) (id m))) cur in
  let isLeft s :=
    let sr := getRectFor v s in
    Qlt_bool (Rect.x sr + Rect.w sr / 2) parentCenterX in
  let leftCount := length (List.filter isLeft siblings) in
  let rightCount := length (List.filter (fun s => negb (isLeft s)) siblings) in
  if (leftCount <=? rightCount)%nat then SideLeft else SideRight.

(** Position of a user message that starts a branch off a main message. *)
Definition branchPos (v : View) (cur : list Message) (m : Message)
    (pr : Rect.t) (size : Size.t) : Q * Q :=
  let preferSide := preferSideFor v cur m pr in
  let pos := choosePlacement cur (getRectFor v) pr (Size.w size) (Size.h size)
               [id m] (Some preferSide) in
  match Pos.side pos with
  | SideBelow =>
      let occ := buildOccupancy cur (getRectFor v) [id m] in
      let sideGapPx := inject_Z sideGapCells * GRID in
      let targetLeftX :=
        match preferSide with
        | SideLeft => Math.max EDGE_PADDING (Rect.x pr - sideGapPx - Size.w size)
        | _ => Rect.x pr + Rect.w pr + sideGapPx
        end in
      let pos' := findSlotBelowAtX occ targetLeftX pr (Size.w size) (Size.h size) in
      (Pos.x pos', Pos.y pos')
  | _ => (Pos.x pos, Pos.y pos)
  end.

(** Position of a thread message. *)
Definition threadPos (v : View) (cur : list Message) (st : State)
    (m : Message) (p : string) (pr : Rect.t) (size : Size.t) : Q * Q :=
  let isUserMsg := String.eqb (senderId m) "local-user" in
  let parentIsThread :=
    match findById cur p with Some pm => isThread pm | None => false end in
  if isUserMsg then
    if parentIsThread
    then stackBelowAtX v (next st) (Rect.x pr) pr size (id m)
    else branchPos v cur m pr size
  else stackBelowAtX v (next st) (Rect.x pr) pr size (id m).

(** The pinned center of [rootId], pinned now when it is not yet. *)
Definition pinnedCenter (v : View) (cur : list Message) (st : State)
    (rootId : string) : Q * State :=
  match rootCenters st !! rootId with
  | Some c => (c, st)
  | None =>
      let c := match getRectById v cur rootId with
               | Some r => Rect.x r + Rect.w r / 2
               | None => stageWidth v / 2
               end in
      (c, setRootCenter st rootId c)
  end.

(** Position of a main-chain message below its parent. *)
Definition mainPos (v : View) (cur : list Message) (m : Message)
    (rootCenter : Q) (pr : Rect.t) (size : Size.t) : Q * Q :=
  let occ := buildOccupancy cur (getRectFor v) [id m] in
  let pos := findSlotBelowAtCenter occ rootCenter pr (Size.w size) (Size.h size) in
  (Pos.x pos, Pos.y pos).

(** [m.x = pos.x; m.y = clampYNoBottom(pos.y)], the two [ensure...] calls
    and [changed = true]. *)
Definition assign (v : View) (st : State) (i : nat) (m : Message)
    (size : Size.t) (pos : Q * Q) : State :=
  let mx := fst pos in
  let my := clampYNoBottom (snd pos) in
  let st1 := setNext st (<[i := withY (withX m mx) my]> (next st)) in
  setStage st1
    (ensureHeightForRect v my (Size.h size)
       (ensureWidthForRect v mx (Size.w size) (stage st1))).

(** The branch [if (m.parentId)].  [None]: [getRootIdOf] does not return. *)
Definition placeChild (v : View) (cur : list Message) (st : State)
    (i : nat) (m : Message) (size : Size.t) (p : string) : option State :=
  match getPlacedRectById v cur (next st) p with
  | None => Some st
  | Some pr =>
      match findById cur p with
      | None => Some st
      | Some pm =>
          match x pm with
          | None => Some st
          | Some _ =>
              rootId ← getRootIdOf cur p;
              if isThread m
              then Some (assign v st i m size (threadPos v cur st m p pr size))
              else
                let '(rootCenter, st1) := pinnedCenter v cur st rootId in
                let pos := mainPos v cur m rootCenter pr size in
                let st2 := setLocalTail st1 rootId (id m) in
                Some (assign v st2 i m size pos)
          end
      end
  end.

(** [placedRoots.reduce((a, b) => getRectFor(a).y > getRectFor(b).y ? a : b)]. *)
Definition lowestRoot (v : View) (placedRoots : list Message) : option Message :=
  match placedRoots with
  | [] => None
  | r :: rest =>
      Some (foldl (fun a b =>
                     if Qlt_bool (Rect.y (getRectFor v b)) (Rect.y (getRectFor v a))
                     then a else b) r rest)
  end.

Definition placedRootsOf (nxt : list Message) : list Message :=
  List.filter (fun t => negb (truthy (parentId t)) && placed t) nxt.

(** [snap(Math.round((stageSizeRef.current.width - rectW) / 2))]. *)
Definition rootX (v : View) (rectW : Q) : Q :=
  snap (inject_Z (Math.round ((stageWidth v - rectW) / 2))).

(** [m.y] of a root. *)
Definition rootY (v : View) (nxt : list Message) : Q :=
  match lowestRoot v (placedRootsOf nxt) with
  | None => snap EDGE_PADDING
  | Some lowest =>
      let lr := getRectFor v lowest in
      clampYNoBottom (Rect.y lr + Rect.h lr + GAP)
  end.

(** The branch for a root message. *)
Definition placeRoot (v : View) (st : State) (i : nat) (m : Message)
    (size : Size.t) : State :=
  let mx := rootX v (Size.w size) in
  let my := rootY v (next st) in
  let st1 := setNext st (<[i := withY (withX m mx) my]> (next st)) in
  let st2 := setStage st1
               (ensureHeightForRect v my (Size.h size)
                  (ensureWidthForRect v mx (Size.w size) (stage st1))) in
  let rootCenter := mx + Size.w size / 2 in
  setMainTail (setRootCenter st2 (id m) rootCenter) (id m) (id m).

(** Body of [for (let i = 0; i < next.length; i++)]. *)
Definition placeAt (v : View) (cur : list Message) (i : nat) (st : State)
  : option State :=
  match next st !! i with
  | None => Some st
  | Some m =>
      if placed m then Some st
      else
        match bubbleSizes v !! id m with
        | None => Some st
        | Some size =>
            match parentId m with
            | Some p =>
                if truthy (Some p) then placeChild v cur st i m size p
                else Some (placeRoot v st i m size)
            | None => Some (placeRoot v st i m size)
            end
        end
  end.

Definition placeAll (v : View) (cur : list Message) (st : State) : option State :=
  foldl (fun acc i => acc ≫= placeAt v cur i) (Some st)
        (seq 0 (length (next st))).

(** The state in which the pass starts: [next] copies the messages,
    [localMainTail] copies the tail map. *)
Definition initial (cur : list Message) (centers : gmap string Q)
    (tails : gmap string string) (stg : Stage.t) : State :=
  mkState cur false centers tails tails stg.

(** What the effect leaves behind: the committed message list (the working
    copy only when something changed), the flag, the ref maps and the
    stage size. *)
Record Outcome : Type := mkOutcome {
  messages : list Message;
  committed : bool;
  centers : gmap string Q;
  tails : gmap string string;
  stageSize : Stage.t
}.

Definition finish (cur : list Message) (st : State) : Outcome :=
  mkOutcome (if changed st then next st else cur)
            (changed st)
            (rootCenters st)
            (if changed st then localMainTail st else mainTailByRoot st)
            (stage st).

(** The whole effect.  [None]: a call to [getRootIdOf] does not return. *)
Definition pass (v : View) (cur : list Message) (centers0 : gmap string Q)
    (tails0 : gmap string string) (stg : Stage.t) : option Outcome :=
  finish cur <$> placeAll v cur (initial cur centers0 tails0 stg).

End Placement.

(** ** More of ChatCanvas.jsx: stage size and dragging *)

(** [updateStageSize]: the stage that fits the viewport and every placed
    bubble with a margin of [GAP * 2]. *)
Definition updateStageSize (v : View) (cur : list Message) : Stage.t :=
  let '(maxX, maxY) :=
    foldl (fun (acc : Q * Q) (m : Message) =>
             let '(maxX, maxY) := acc in
             match x m, y m with
             | Some mx, Some my =>
                 let r := getRectFor v m in
                 (Math.max maxX (mx + Rect.w r + GAP * 2),
                  Math.max maxY (my + Rect.h r + GAP * 2))
             | _, _ => acc
             end)
          (viewportW v, viewportH v) cur in
  Stage.mk (inject_Z (Math.ceil (Math.max maxX (viewportW v))))
           (inject_Z (Math.ceil (Math.max maxY (viewportH v)))).

(** The callback of the [prev.map] of [handleMouseUp] for the dropped
    bubble; a null coordinate counts as 0 in [Math.max]. *)
Definition dropOne (v : View) (m : Message) (s : Stage.t) : Message * Stage.t :=
  let size := Placement.sizeOrDefault v (id m) in
  let nx := snap (Math.max (orElse (x m) 0) EDGE_PADDING) in
  let ny := clampYNoBottom (orElse (y m) 0) in
  (withY (withX m nx) ny,
   ensureHeightForRect v ny (Size.h size) (ensureWidthForRect v nx (Size.w size) s)).

(** The first update of [handleMouseUp]: the dropped bubble is snapped and
    clamped, the stage is grown for it. *)
Fixpoint dropMessage (v : View) (justDroppedId : string) (prev : list Message)
    (s : Stage.t) : list Message * Stage.t :=
  match prev with
  | [] => ([], s)
  | m :: rest =>
      let '(m', s1) :=
        if String.eqb (id m) justDroppedId then dropOne v m s else (m, s) in
      let '(r, s2) := dropMessage v justDroppedId rest s1 in
      (m' :: r, s2)
  end.

(** ** utils/thread.js: the main tail of a root *)

(** A [filter] whose predicate may fail to return. *)
Fixpoint filterOpt {A : Type} (f : A -> option bool) (l : list A) : option (list A) :=
  match l with
  | [] => Some []
  | a :: l' =>
      match f a, filterOpt f l' with
      | Some b, Some r => Some (if b then a :: r else r)
      | _, _ => None
      end
  end.

(** The predicate of the first [filter] of [getTailIdForRoot]: follow the
    parent pointers from [m] itself and compare the id reached with
    [rootId].  [None]: the loop does not exit within the budget. *)
Definition belongsToRoot (M : gmap string Message) (fuel : nat) (rootId : string)
    (m : Message) : option bool :=
  match climb M fuel (Some m) with
  | Some (Some c) => Some (String.eqb (id c) rootId)
  | Some None => Some false
  | None => None
  end.

Section Timestamps.

(** [new Date(timestamp)] as a number.  The parser of dates belongs to the
  platform; [time] stands for it, invalid dates are outside the model. *)
Variable time : string -> Q.

(** [(a, b) => (new Date(a.timestamp) > new Date(b.timestamp) ? a : b)]. *)
Definition laterOf (a b : Message) : Message :=
if Qlt_bool (time (timestamp b)) (time (timestamp a)) then a else b.

(** [getTailIdForRoot(messagesRef, rootId)]. *)
Definition getTailIdForRoot (msgs : list Message) (rootId : string) : option string :=
let M := idToMsg msgs in
inRoot ← filterOpt (belongsToRoot M (length msgs) rootId) msgs;
match inRoot with
| [] => Some rootId
| _ =>
    let mainOnly := List.filter (fun m => negb (isThread m)) inRoot in
    match mainOnly with
    | [] => Some rootId
    | a :: rest => Some (id (foldl laterOf a rest))
    end
end.

End Timestamps.

(** ** utils/llm.js: the ancestry of a bubble *)

(** The loop of [buildAncestryChain]; [chain.push(cur)] appends.  [None]:
    the loop does not exit within the budget. *)
Fixpoint ancestryLoop (M : gmap string Message) (fuel : nat)
    (cur : option Message) (chain : list Message) : option (list Message) :=
  match cur with
  | None => Some chain
  | Some m =>
      let chain' := chain ++ [m] in
      if truthy (parentId m) then
        match fuel with
        | O => None
        | S fuel' =>
            match parentId m with
            | Some p => ancestryLoop M fuel' (M !! p) chain'
            | None => Some chain'
            end
        end
      else Some chain'
  end.

(** [buildAncestryChain(allMessages, targetId)]: the chain from the root down
    to the target. *)
Definition buildAncestryChain (allMessages : list Message) (targetId : string)
  : option (list Message) :=
  let byId := idToMsg allMessages in
  chain ← ancestryLoop byId (length allMessages) (byId !! targetId) [];
  Some (reverse chain).

(** ** utils/persistence.js: thread ids of loaded messages *)

(** [deriveThreadId(messages, msg)] for a message [msg]. *)
Definition deriveThreadId (messages : list Message) (msg : Message) : option string :=
  let own := match threadId msg with Some t => t | None => id msg end in
  match messages with
  | [] => Some own
  | _ =>
      match climb (idToMsg messages) (length messages) (Some msg) with
      | Some (Some c) => Some (id c)
      | Some None => Some own
      | None => None
      end
  end.

Definition withThreadId (m : Message) (t : string) : Message :=
  mkMessage (id m) (parentId m) (Some t) (isThread m) (senderId m)
            (text m) (timestamp m) (x m) (y m).

(** The backfill of [loadState]:
    [messages.map((m) => ({ ...m, threadId: m.threadId ?? deriveThreadId(messages, m) }))]. *)
Fixpoint backfillFrom (messages l : list Message) : option (list Message) :=
  match l with
  | [] => Some []
  | m :: rest =>
      m' ← match threadId m with
           | Some _ => Some m
           | None => withThreadId m <$> deriveThreadId messages m
           end;
      r ← backfillFrom messages rest;
      Some (m' :: r)
  end.

Definition backfillThreadIds (messages : list Message) : option (list Message) :=
  backfillFrom messages messages.

(** ** Specification vocabulary *)

(** *** Parent chains (thread.js) *)

(** [parentOf M m m']: one iteration of the loop of [getRootIdOf] takes [cur]
    from [m] to [m']. *)
Definition parentOf (M : gmap string Message) (m m' : Message) : Prop :=
  exists p, parentId m = Some p /\ truthy (Some p) = true /\ M !! p = Some m'.

(** The chain of parent lookups that starts at [cur] is finite: it reaches a
    message without a parent id, or an id that has no message. *)
Inductive Grounded (M : gmap string Message) : option Message -> Prop :=
| grounded_missing : Grounded M None
| grounded_root m : truthy (parentId m) = false -> Grounded M (Some m)
| grounded_step m p :
    parentId m = Some p -> truthy (Some p) = true ->
    Grounded M (M !! p) -> Grounded M (Some m).

(** The parent pointers of a list are acyclic: from every id the chain of
    lookups is finite. *)
Definition Acyclic (msgs : list Message) : Prop :=
  forall i, Grounded (idToMsg msgs) (idToMsg msgs !! i).

(** [ChainEnd M cur e]: following parent pointers from [cur] ends at [e],
    the last message reached, or at nothing when the chain breaks on an id
    without a message. *)
Inductive ChainEnd (M : gmap string Message) : option Message -> option Message -> Prop :=
| chain_missing : ChainEnd M None None
| chain_root m : truthy (parentId m) = false -> ChainEnd M (Some m) (Some m)
| chain_step m p e :
    parentId m = Some p -> truthy (Some p) = true ->
    ChainEnd M (M !! p) e -> ChainEnd M (Some m) e.


(** *** Slot finding below a parent (placement.js) *)


(** *** Occupancy (placement.js) *)

(** The pixel rectangle of [m], expanded by [PADDING], in grid cells. *)
Definition convertedCell (getRect : Message -> Rect.t) (m : Message) : Cell.t :=
  let r := getRect m in
  Cell.mk (Some (id m)) (toCol (Rect.x r)) (toRow (Rect.y r))
          (spanOf (Rect.w r)) (spanOf (Rect.h r)).

(** A cell rectangle grown by [p] cells on each of its four sides. *)
Definition padAllSides (p : Z) (c : Cell.t) : Cell.t :=
  Cell.mk (Cell.id c) (Cell.col c - p) (Cell.row c - p)
          (Cell.spanX c + 2 * p) (Cell.spanY c + 2 * p).

(** The messages that [buildOccupancy] keeps. *)
Definition occupies (excludeIds : list string) (m : Message) : Prop :=
  placed m = true /\ id m ∉ excludeIds.

(** *** Overlap resolution (resolveOverlaps.js) *)

Section ResolverVocabulary.

Variable getRect : Message -> Rect.t.

(** Both pixel overlaps of the pair are positive. *)
Definition TrulyOverlap (A B : Message) : Prop :=
  0 < fst (overlapAmount getRect A B) /\ 0 < snd (overlapAmount getRect A B).

(** [A] and [B] have the same parent and their tops differ by at most [tol]. *)
Definition SiblingsWithin (tol : Q) (A B : Message) : Prop :=
  truthy (parentId A) = true
  /\ parentId A = parentId B
  /\ Math.abs (Rect.y (getRect A) - Rect.y (getRect B)) <= tol.

(** The vertical overlap is at least the horizontal one, or one of the two
    messages is a main-chain message. *)
Definition PrefersDown (A B : Message) : Prop :=
  fst (overlapAmount getRect A B) <= snd (overlapAmount getRect A B)
  \/ isThread A = false \/ isThread B = false.

(** The row tolerance in the words of the spec: one grid unit or half of
    the height of [A], whichever is larger. *)
Definition halfHeightTol (A : Message) : Q :=
  Math.max GRID (Rect.h (getRect A) / 2).

End ResolverVocabulary.

(** [m'] is [m] with at most its coordinates adjusted: every other field is
    kept, an unplaced message is kept as it is, a placed one stays placed. *)
Definition Adjusted (m m' : Message) : Prop :=
  id m' = id m /\ parentId m' = parentId m /\ threadId m' = threadId m
  /\ isThread m' = isThread m /\ senderId m' = senderId m
  /\ text m' = text m /\ timestamp m' = timestamp m
  /\ (placed m = false -> m' = m)
  /\ (placed m = true -> placed m' = true).

(** *** Grid alignment and the placement pass *)

(** A message that has both coordinates has them on the grid. *)
Definition OnGridMsg (m : Message) : Prop :=
  match x m, y m with
  | Some mx, Some my => onGrid mx /\ onGrid my
  | _, _ => True
  end.

(** What a placement pass may do to a message: leave it as it is, or give an
    unplaced message grid coordinates. *)
Definition PlacedBy (m m' : Message) : Prop :=
  m' = m
  \/ (placed m = false
      /\ exists px py, m' = withY (withX m px) py /\ onGrid px /\ onGrid py).

(** *** Worked examples *)

(** A stage 1000 pixels wide, no mounted elements, measured sizes for the
    bubbles of the examples below. *)
Definition exView : View :=
  mkView
    (list_to_map
       [("r1", Size.mk 300 105); ("r2", Size.mk 200 100); ("c", Size.mk 310 100);
        ("a", Size.mk 300 100);
        ("A2", Size.mk 300 200); ("B2", Size.mk 300 100); ("B3", Size.mk 300 200);
        ("A5", Size.mk 300 101); ("B5", Size.mk 300 100)])
    ∅ false 1000 1000 800.

Definition exStage : Stage.t := Stage.mk 1000 800.

(** A message of the local user with the given id, parent, thread flag and
    coordinates. *)
Definition exMsg (i : string) (p : option string) (th : bool)
    (mx my : option Q) : Message :=
  mkMessage i p (Some i) th "local-user" "hello" "2024-01-01T00:00:00.000Z" mx my.

Definition exRoot2 : Message := exMsg "r2" None false None None.
Definition exRoot1Placed : Message := exMsg "r1" None false (Some 360) (Some 80).

(** A main-chain reply to the first root, 310 pixels wide. *)
Definition exChild : Message := exMsg "c" (Some "r1") false None None.

(** A placed bubble used for the occupancy example. *)
Definition exBubble : Message := exMsg "a" None false (Some 200) (Some 200).

(** A main-chain bubble with a thread bubble vertically inside it, and one
    that reaches below it. *)
Definition exTall : Message := exMsg "A2" None false (Some 100) (Some 100).
Definition exInside : Message := exMsg "B2" (Some "A2") true (Some 100) (Some 120).
Definition exBelow : Message := exMsg "B3" (Some "A2") true (Some 100) (Some 200).

(** Two thread siblings whose tops differ by 50.5 pixels; the first is 101
    pixels high. *)
Definition exSibA : Message := exMsg "A5" (Some "p") true (Some 100) (Some 80).
Definition exSibB : Message := exMsg "B5" (Some "p") true (Some 380) (Some (261 # 2)).

(** A bubble left off the grid, as during a drag. *)
Definition exDragged : Message := exMsg "a" None false (Some 33) (Some 47).

(** A number that [snap] produced. *)
Definition snapped (q : Q) : Prop := exists n, q = snap n.

(** ** Tactics *)

(** Linear arithmetic over the rationals, after the pixel constants and the
    divisions by constants are made explicit. *)
Ltac qinv_const :=
  repeat match goal with
         | |- context [Qinv ?c] =>
             let v := eval vm_compute in (Qinv c) in change (Qinv c) with v in *
         | H : context [Qinv ?c] |- _ =>
             let v := eval vm_compute in (Qinv c) in change (Qinv c) with v in *
         end.
Ltac qlin :=
  unfold GRID, GAP, SIDE_GAP, PADDING, EDGE_PADDING, Qdiv in *; qinv_const; lra.

(** Comparisons of concrete rationals. *)
Ltac qdecide :=
  lazymatch goal with
  | |- ~ _ => let H := fresh in intros H; vm_compute in H; first [discriminate H | by apply H]
  | |- _ => vm_compute; first [reflexivity | discriminate | done]
  end.

(** ** More tactics *)

(** Carries an inequality between integers over to the rationals. *)
Ltac zq H :=
  first [rewrite Zle_Qle in H | rewrite Zlt_Qlt in H];
  repeat first [rewrite inject_Z_plus in H | rewrite inject_Z_mult in H
               | rewrite inject_Z_opp in H];
  repeat match type of H with
         | context [inject_Z (Zpos ?p)] =>
             change (inject_Z (Zpos p)) with (Zpos p # 1) in H
         | context [inject_Z (Zneg ?p)] =>
             change (inject_Z (Zneg p)) with (Zneg p # 1) in H
         | context [inject_Z Z0] => change (inject_Z Z0) with 0 in H
         end.

(** ** More specification vocabulary *)

(** The order of the resolver's sort: by [y], then by [x], null as 0. *)
Definition leYX (a b : Message) : Prop :=
  orElse (y a) 0 < orElse (y b) 0
  \/ (orElse (y a) 0 == orElse (y b) 0 /\ orElse (x a) 0 <= orElse (x b) 0).

(** A message that has both coordinates has them at or beyond the edge
    padding. *)
Definition OnCanvasMsg (m : Message) : Prop :=
  match x m, y m with
  | Some mx, Some my => EDGE_PADDING <= mx /\ EDGE_PADDING <= my
  | _, _ => True
  end.

(** The stage [s] holds the rectangle [(xv, yv, w, h)] with [margin] to
    spare on the right and below. *)
Definition StageHolds (s : Stage.t) (margin xv yv w h : Q) : Prop :=
  xv + w + margin <= Stage.width s /\ yv + h + margin <= Stage.height s.

(** [s'] is at least as large as [s]. *)
Definition StageGrows (s s' : Stage.t) : Prop :=
  Stage.width s <= Stage.width s' /\ Stage.height s <= Stage.height s'.

(** *** Stacking below a parent (ChatCanvas.jsx) *)

(** Where the candidate of [stackBelowAtX] lands when [r] is in its way. *)
Definition landing (r : Rect.t) : Q := snap (Rect.y r + Rect.h r + GAP).

(** The body of the loop over the placed rectangles. *)
Definition sweepStep (acc : Rect.t * bool) (r : Rect.t) : Rect.t * bool :=
  let '(c, ch) := acc in
  if Placement.rectsOverlapPx c r
  then (Rect.mk (Rect.x c) (snap (Rect.y r + Rect.h r + GAP)) (Rect.w c) (Rect.h c), true)
  else (c, ch).

(** The rectangles that can still push a candidate at height [yv] down. *)
Definition ahead (rects : list Rect.t) (yv : Q) : nat :=
  length (List.filter (fun r => Qlt_bool yv (landing r)) rects).

(** *** Dropping a bubble (ChatCanvas.jsx) *)

(** What the drop of [droppedId] makes of a message [m]: any other message
    stays as it is; the dropped one goes to a grid point at or beyond the
    edge padding, at most half a grid unit from where it was released when
    that was beyond the edge padding, and the stage [s'] holds it. *)
Definition DroppedAt (v : View) (droppedId : string) (s' : Stage.t)
    (m m' : Message) : Prop :=
  if String.eqb (id m) droppedId then
    exists nx ny,
      m' = withY (withX m nx) ny
      /\ onGrid nx /\ onGrid ny /\ EDGE_PADDING <= nx /\ EDGE_PADDING <= ny
      /\ (EDGE_PADDING <= orElse (x m) 0 ->
          Qabs (nx - orElse (x m) 0) <= GRID / 2)
      /\ (EDGE_PADDING <= orElse (y m) 0 ->
          Qabs (ny - orElse (y m) 0) <= GRID / 2)
      /\ StageHolds s' EDGE_PADDING nx ny
           (Size.w (Placement.sizeOrDefault v (id m)))
           (Size.h (Placement.sizeOrDefault v (id m)))
  else m' = m.

(** *** Tails and ancestries (thread.js, llm.js, persistence.js) *)

(** [m] is a main-chain message of the root [rootId]: it is not a thread
    message, and following the parent pointers from it ends at a message
    with id [rootId]. *)
Definition MainOf (msgs : list Message) (rootId : string) (m : Message) : Prop :=
  m ∈ msgs /\ isThread m = false
  /\ exists e, ChainEnd (idToMsg msgs) (Some m) (Some e) /\ id e = rootId.

(** The messages met on the way up from [cur], [cur] first: the way ends at
    a message without a parent id, or where the parent id has no message. *)
Inductive UpPath (M : gmap string Message) : option Message -> list Message -> Prop :=
| up_missing : UpPath M None []
| up_root m : truthy (parentId m) = false -> UpPath M (Some m) [m]
| up_step m p path :
    parentId m = Some p -> truthy (Some p) = true ->
    UpPath M (M !! p) path -> UpPath M (Some m) (m :: path).

(** [m'] is [m] with a thread id filled in where it had none: the id at the
    end of the parent chain of [m], or the id of [m] when the chain breaks. *)
Definition Backfilled (msgs : list Message) (m m' : Message) : Prop :=
  match threadId m with
  | Some _ => m' = m
  | None =>
      exists e, ChainEnd (idToMsg msgs) (Some m) e
                /\ m' = withThreadId m (match e with Some c => id c | None => id m end)
  end.

(** * Properties *)

(** ** Numbers: rounding and the grid *)

Section Numbers.

Lemma Qlt_bool_iff (a b : Q) : Qlt_bool a b = true <-> a < b.
Proof.
  unfold Qlt_bool. rewrite negb_true_iff. split.
  - intros H. apply Qnot_le_lt. intros Hle. apply Qle_bool_iff in Hle. congruence.
  - intros H. destruct (Qle_bool b a) eqn:E; [|done].
    apply Qle_bool_iff in E. lra.
Qed.

Lemma Qlt_bool_false (a b : Q) : Qlt_bool a b = false <-> b <= a.
Proof.
  unfold Qlt_bool. rewrite negb_false_iff. apply Qle_bool_iff.
Qed.

Lemma Qle_bool_false (a b : Q) : Qle_bool a b = false <-> b < a.
Proof.
  split.
  - intros H. apply Qnot_le_lt. intros Hle. apply Qle_bool_iff in Hle. congruence.
  - intros H. destruct (Qle_bool a b) eqn:E; [|done]. apply Qle_bool_iff in E. lra.
Qed.

Lemma max_spec (a b : Q) :
  (a <= b /\ Math.max a b = b) \/ (b < a /\ Math.max a b = a).
Proof.
  unfold Math.max. destruct (Qle_bool a b) eqn:E.
  - left. by apply Qle_bool_iff in E.
  - right. by apply Qle_bool_false in E.
Qed.

Lemma min_spec (a b : Q) :
  (a <= b /\ Math.min a b = a) \/ (b < a /\ Math.min a b = b).
Proof.
  unfold Math.min. destruct (Qle_bool a b) eqn:E.
  - left. by apply Qle_bool_iff in E.
  - right. by apply Qle_bool_false in E.
Qed.


Lemma floor_spec (q : Q) :
  inject_Z (Math.floor q) <= q /\ q < inject_Z (Math.floor q) + 1.
Proof.
  unfold Math.floor. split; [apply Qfloor_le|].
  pose proof (Qlt_floor q) as H. rewrite inject_Z_plus in H. exact H.
Qed.

Lemma floor_unique (q : Q) (k : Z) :
  inject_Z k <= q -> q < inject_Z k + 1 -> Math.floor q = k.
Proof.
  intros Hlo Hhi. destruct (floor_spec q) as [Flo Fhi].
  assert (inject_Z (Math.floor q) < inject_Z (k + 1)) as H1
    by (rewrite inject_Z_plus; change (inject_Z 1) with 1; lra).
  assert (inject_Z k < inject_Z (Math.floor q + 1)) as H2
    by (rewrite inject_Z_plus; change (inject_Z 1) with 1; lra).
  rewrite <- Zlt_Qlt in H1, H2. lia.
Qed.

Lemma round_spec (q : Q) :
  q - (1 # 2) < inject_Z (Math.round q) /\ inject_Z (Math.round q) <= q + (1 # 2).
Proof.
  unfold Math.round. destruct (floor_spec (q + (1 # 2))) as [Flo Fhi].
  unfold Math.floor in *. lra.
Qed.

Lemma round_inject_Z (k : Z) : Math.round (inject_Z k) = k.
Proof.
  unfold Math.round. apply (floor_unique (inject_Z k + (1 # 2)) k); lra.
Qed.

Lemma round_comp (p q : Q) : p == q -> Math.round p = Math.round q.
Proof. intros H. unfold Math.round. by rewrite H. Qed.

Lemma floor_comp (p q : Q) : p == q -> Math.floor p = Math.floor q.
Proof. intros H. unfold Math.floor. by rewrite H. Qed.

Lemma snap_onGrid (n : Q) : onGrid (snap n).
Proof. exists (Math.round (n / GRID)). reflexivity. Qed.

Lemma snap_comp (p q : Q) : p == q -> snap p = snap q.
Proof.
  intros H. unfold snap. f_equal. f_equal. apply round_comp. by rewrite H.
Qed.

(** [snap] moves a number by at most half a grid unit. *)
Lemma snap_spec (n : Q) : n - GRID / 2 < snap n /\ snap n <= n + GRID / 2.
Proof.
  unfold snap. destruct (round_spec (n / GRID)) as [Rlo Rhi]. qlin.
Qed.

Lemma snap_fromCol (c : Z) : snap (fromCol c) = fromCol c.
Proof.
  unfold snap, fromCol. f_equal. f_equal.
  rewrite <- (round_inject_Z c) at 2. apply round_comp. unfold GRID. field.
Qed.

Lemma onGrid_fromCol (c : Z) : onGrid (fromCol c).
Proof. by exists c. Qed.

(** [toCol] is the grid column of a pixel: [fromCol (toCol x) <= x < fromCol (toCol x) + GRID]. *)
Lemma toCol_spec (xv : Q) :
  fromCol (toCol xv) <= xv /\ xv < fromCol (toCol xv) + GRID.
Proof.
  unfold fromCol, toCol. destruct (floor_spec (xv / GRID)) as [Flo Fhi]. qlin.
Qed.

Lemma toCol_fromCol (c : Z) : toCol (fromCol c) = c.
Proof.
  unfold toCol, fromCol. apply floor_unique.
  - assert (inject_Z c * GRID / GRID == inject_Z c) as -> by (unfold GRID; field). lra.
  - assert (inject_Z c * GRID / GRID == inject_Z c) as -> by (unfold GRID; field). lra.
Qed.

Lemma constants_values :
  gapCells = 3%Z /\ padCells = 1%Z /\ leftEdgeCol = 4%Z /\ sideGapCells = 6%Z.
Proof. by vm_compute. Qed.

End Numbers.

(** ** thread.js: [getRootIdOf] *)

Lemma idToMsg_lookup_Some (l : list Message) (k : string) (m : Message) :
  idToMsg l !! k = Some m -> m ∈ l /\ id m = k.
Proof.
  unfold idToMsg. induction l as [|a l IH] using rev_ind; simpl.
  - rewrite lookup_empty. discriminate.
  - rewrite foldl_snoc. destruct (decide (id a = k)) as [<-|Hne].
    + rewrite lookup_insert_eq. intros [= <-].
      split; [apply elem_of_app; right; by apply list_elem_of_singleton | done].
    + rewrite lookup_insert_ne by done. intros H.
      destruct (IH H). split; [apply elem_of_app; by left | done].
Qed.

Section ParentChains.

Variable M : gmap string Message.

(** A grounded message does not lie on a cycle of parent pointers. *)
Lemma grounded_no_cycle (o : option Message) :
  Grounded M o -> forall m, o = Some m -> ~ tc (parentOf M) m m.
Proof.
  induction 1 as [| m Hroot | m p Hp Ht Hg IH]; intros m0 Heq Hc; simplify_eq.
  - apply tc_nsteps in Hc as (n & Hn & Hs).
    inversion Hs as [| ? ? z ? Hstep]; subst; [lia|].
    destruct Hstep as (q & Hq & Htq & _). rewrite Hq, Htq in Hroot. discriminate.
  - assert (exists m', M !! p = Some m' /\ tc (parentOf M) m' m') as (m' & Hm' & Hcyc).
    { inversion Hc as [? ? Hstep | ? z ? Hstep Hrest]; subst;
        destruct Hstep as (q & Hq & Htq & Hl);
        assert (q = p) as -> by congruence.
      - exists m0. split; [done|]. apply tc_once. by exists p.
      - exists z. split; [done|]. eapply tc_r; [exact Hrest|]. by exists p. }
    exact (IH m' Hm' Hcyc).
Qed.

Lemma grounded_parent (m : Message) (p : string) :
  Grounded M (Some m) -> parentId m = Some p -> truthy (Some p) = true ->
  Grounded M (M !! p).
Proof.
  inversion 1 as [| ? Hroot | ? q Hq Ht Hg]; subst; intros Hp Htp.
  - rewrite Hp, Htp in Hroot. discriminate.
  - rewrite Hp in Hq. injection Hq as <-. exact Hg.
Qed.

Lemma climb_chain_end (fuel : nat) :
  forall (o e : option Message), climb M fuel o = Some e -> ChainEnd M o e.
Proof.
  induction fuel as [|fuel IH]; intros [m|] e; simpl; intros H;
    try (injection H as <-; constructor);
    destruct (parentId m) as [p|] eqn:Hp;
    try (injection H as <-; apply chain_root; by rewrite Hp);
    destruct (truthy (Some p)) eqn:Ht;
    try discriminate;
    try (injection H as <-; apply chain_root; by rewrite Hp).
  eapply chain_step; eauto.
Qed.

Lemma chain_end_unique (o e1 e2 : option Message) :
  ChainEnd M o e1 -> ChainEnd M o e2 -> e1 = e2.
Proof.
  induction 1 as [| m Hr | m p e Hp Ht _ IH];
    inversion 1 as [| ? Hr' | ? q ? Hq Htq He']; subst; try done.
  - rewrite Hq, Htq in Hr. discriminate.
  - rewrite Hp, Ht in Hr'. discriminate.
  - assert (q = p) as -> by congruence. by apply IH.
Qed.

End ParentChains.

(** One unit of budget per message suffices: the messages visited so far
    are pairwise distinct members of the list. *)
Lemma climb_bound (msgs : list Message) (fuel : nat) :
  forall (visited : list Message) (m : Message),
    Grounded (idToMsg msgs) (Some m) ->
    NoDup visited ->
    (forall u, u ∈ visited -> u ∈ msgs /\ tc (parentOf (idToMsg msgs)) u m) ->
    m ∈ msgs ->
    (length msgs <= fuel + length visited)%nat ->
    exists e, climb (idToMsg msgs) fuel (Some m) = Some e.
Proof.
  induction fuel as [|fuel IH]; intros visited m Hg Hnd Hvis Hin Hlen.
  - assert (Hfresh : m ∉ visited).
    { intros Hm. destruct (Hvis m Hm) as [_ Hc].
      exact (grounded_no_cycle _ _ Hg m eq_refl Hc). }
    assert (Hsub : (m :: visited) ⊆+ msgs).
    { apply NoDup_submseteq; [by constructor|].
      intros u [->|Hu]%elem_of_cons; [done | by apply Hvis]. }
    apply submseteq_length in Hsub. simpl in Hsub, Hlen. lia.
  - simpl. destruct (parentId m) as [p|] eqn:Hp; [|eauto].
    destruct (truthy (Some p)) eqn:Ht; [|eauto].
    pose proof (grounded_parent _ m p Hg Hp Ht) as Hg'.
    destruct (idToMsg msgs !! p) as [m'|] eqn:Hm'; [|destruct fuel; simpl; eauto].
    assert (Hfresh : m ∉ visited).
    { intros Hm. destruct (Hvis m Hm) as [_ Hc].
      exact (grounded_no_cycle _ _ Hg m eq_refl Hc). }
    assert (Hstep : parentOf (idToMsg msgs) m m') by (exists p; done).
    apply (IH (m :: visited) m' Hg').
    + by constructor.
    + intros u [->|Hu]%elem_of_cons.
      * split; [done | by apply tc_once].
      * destruct (Hvis u Hu) as [? ?]. split; [done | by eapply tc_r].
    + by apply (idToMsg_lookup_Some msgs p m').
    + simpl. lia.
Qed.



(** ** placement.js: occupancy *)

Section Occupancy.

Variable getRect : Message -> Rect.t.

Lemma existsb_eqb_elem (i : string) (l : list string) :
  existsb (String.eqb i) l = true <-> i ∈ l.
Proof.
  rewrite existsb_exists. split.
  - intros (s & Hin & Heq). apply String.eqb_eq in Heq as ->.
    by apply list_elem_of_In.
  - intros Hin. exists i. split; [by apply list_elem_of_In | apply String.eqb_refl].
Qed.

Lemma buildOccupancy_elem (cur : list Message) (excludeIds : list string) (c : Cell.t) :
  c ∈ buildOccupancy cur getRect excludeIds <->
  exists m, m ∈ cur /\ occupies excludeIds m /\ c = getMsgGridRect getRect m.
Proof.
  unfold buildOccupancy, occupies.
  rewrite list_elem_of_In, in_map_iff. split.
  - intros (m & <- & Hin). apply filter_In in Hin as [Hin Hf].
    apply andb_true_iff in Hf as [Hp Hex]. apply negb_true_iff in Hex.
    exists m. split; [by apply list_elem_of_In|]. split; [|done]. split; [done|].
    intros Hel. apply existsb_eqb_elem in Hel. congruence.
  - intros (m & Hin & [Hp Hex] & ->). exists m. split; [done|].
    apply filter_In. split; [by apply list_elem_of_In|].
    apply andb_true_iff. split; [done|]. apply negb_true_iff.
    destruct (existsb _ _) eqn:E; [|done]. apply existsb_eqb_elem in E. done.
Qed.

End Occupancy.

(** C3 (as amended).  Every rectangle of [buildOccupancy] is the grid
    rectangle of a placed message that is not excluded.  It starts
    [padCells] columns left of the converted rectangle (not left of
    [leftEdgeCol]) and on the converted rectangle's own row (not above row
    [leftEdgeCol]); both spans are the converted spans plus [2 * padCells].
    Away from the two clamps the footprint therefore extends [padCells]
    cells to the left and to the right, [2 * padCells] cells below and
    nothing above. *)
Theorem buildOccupancy_footprint
    (getRect : Message -> Rect.t) (cur : list Message)
    (excludeIds : list string) (c : Cell.t) :
  c ∈ buildOccupancy cur getRect excludeIds ->
  exists m, m ∈ cur /\ occupies excludeIds m /\
    let k := convertedCell getRect m in
    Cell.id c = Some (id m)
    /\ Cell.col c = Z.max leftEdgeCol (Cell.col k - padCells)
    /\ Cell.row c = Z.max leftEdgeCol (Cell.row k)
    /\ Cell.spanX c = (Cell.spanX k + 2 * padCells)%Z
    /\ Cell.spanY c = (Cell.spanY k + 2 * padCells)%Z
    /\ ((leftEdgeCol <= Cell.col k - padCells)%Z ->
        Cell.col c = (Cell.col k - padCells)%Z
        /\ (Cell.col c + Cell.spanX c = Cell.col k + Cell.spanX k + padCells)%Z)
    /\ ((leftEdgeCol <= Cell.row k)%Z ->
        Cell.row c = Cell.row k
        /\ (Cell.row c + Cell.spanY c = Cell.row k + Cell.spanY k + 2 * padCells)%Z).
Proof.
  intros Hc. apply buildOccupancy_elem in Hc as (m & Hin & Hocc & ->).
  exists m. split; [done|]. split; [done|]. simpl.
  repeat split; try lia.
Qed.

(** ** placement.js: the scan below a parent *)

Lemma isFreeRect_edge (occRects : list Cell.t) (col row sx sy : Z) :
  isFreeRect occRects col row sx sy = true -> (leftEdgeCol <=? col)%Z = true.
Proof.
  unfold isFreeRect. destruct (col <? leftEdgeCol)%Z eqn:E; [discriminate|].
  intros _. apply Z.ltb_ge in E. by apply Z.leb_le.
Qed.

Lemma guard_free (occRects : list Cell.t) (c row sx sy : Z) :
  (leftEdgeCol <=? c)%Z && isFreeRect occRects c row sx sy
  = isFreeRect occRects c row sx sy.
Proof.
  destruct (isFreeRect occRects c row sx sy) eqn:E; [|apply andb_false_r].
  by rewrite (isFreeRect_edge _ _ _ _ _ E).
Qed.



(** ** resolveOverlaps.js *)

Lemma Adjusted_refl (m : Message) : Adjusted m m.
Proof. unfold Adjusted. tauto. Qed.

Lemma Adjusted_trans (m1 m2 m3 : Message) :
  Adjusted m1 m2 -> Adjusted m2 m3 -> Adjusted m1 m3.
Proof.
  unfold Adjusted. intros (?&?&?&?&?&?&?&Hu&Hp) (?&?&?&?&?&?&?&Hu'&Hp').
  repeat split; try congruence.
  - intros Hm. pose proof (Hu Hm) as ->. by apply Hu'.
  - intros Hm. apply Hp'. by apply Hp.
Qed.

Lemma Adjusted_withX (m : Message) (nx : Q) : placed m = true -> Adjusted m (withX m nx).
Proof.
  unfold Adjusted, placed, withX. simpl. intros Hp. repeat split; try congruence.
  destruct (x m), (y m); done.
Qed.

Lemma Adjusted_withY (m : Message) (ny : Q) : placed m = true -> Adjusted m (withY m ny).
Proof.
  unfold Adjusted, placed, withY. simpl. intros Hp. repeat split; try congruence.
  destruct (x m), (y m); done.
Qed.

Lemma Forall2_Adjusted_refl (l : list Message) : Forall2 Adjusted l l.
Proof. induction l; constructor; auto using Adjusted_refl. Qed.

Lemma Forall2_Adjusted_trans (l1 l2 l3 : list Message) :
  Forall2 Adjusted l1 l2 -> Forall2 Adjusted l2 l3 -> Forall2 Adjusted l1 l3.
Proof. apply Forall2_trans, Adjusted_trans. Qed.

(** A pointwise relation can be carried along a permutation of its right side. *)
Lemma Forall2_perm_r {A B : Type} (R : A -> B -> Prop) (b b' : list B) :
  b ≡ₚ b' -> forall a, Forall2 R a b -> exists a', a' ≡ₚ a /\ Forall2 R a' b'.
Proof.
  induction 1 as [| z b b' _ IH | z1 z2 b | b1 b2 b3 _ IH1 _ IH2]; intros a Ha.
  - exists a. done.
  - inversion Ha as [| u ? a1 ? Hu Ha1]; subst.
    destruct (IH a1 Ha1) as (a1' & Hp & Hf).
    exists (u :: a1'). split; [by constructor | by constructor].
  - inversion Ha as [| u1 ? a1 ? Hu1 Ha1]; subst.
    inversion Ha1 as [| u2 ? a2 ? Hu2 Ha2]; subst.
    exists (u2 :: u1 :: a2). split; [apply perm_swap | by repeat constructor].
  - destruct (IH1 a Ha) as (a1 & Hp1 & Hf1).
    destruct (IH2 a1 Hf1) as (a2 & Hp2 & Hf2).
    exists a2. split; [by etrans | done].
Qed.

Lemma insertBy_perm (cmp : Message -> Message -> Q) (a : Message) (l : list Message) :
  insertBy cmp a l ≡ₚ a :: l.
Proof.
  induction l as [|b l IH]; simpl; [done|].
  destruct (Qle_bool (cmp a b) 0); [done|].
  rewrite IH. apply perm_swap.
Qed.

Lemma sortBy_perm (cmp : Message -> Message -> Q) (l : list Message) :
  sortBy cmp l ≡ₚ l.
Proof.
  unfold sortBy. induction l as [|a l IH]; simpl; [done|].
  rewrite insertBy_perm. by constructor.
Qed.

Lemma sameId_eq (a b : option string) : sameId a b = true <-> a = b.
Proof.
  destruct a as [s|], b as [t|]; simpl; split; try done.
  - intros H. apply String.eqb_eq in H. by subst.
  - intros [= ->]. apply String.eqb_refl.
Qed.

Section ResolverFacts.

Context {Fx : Type}.
Variable getRect : Message -> Rect.t.
Variable ensureW ensureH : Q -> Q -> Fx -> Fx.
Variable clampY : Q -> Q.
Variable stageW : Q.

Lemma adjustPair_Adjusted (A B nb : Message) :
  adjustPair getRect clampY stageW A B = Some nb -> Adjusted B nb.
Proof.
  unfold adjustPair. destruct (placed A && placed B) eqn:Hp; [|discriminate].
  apply andb_true_iff in Hp as [_ HpB].
  destruct (overlapAmount getRect A B) as [ox oy].
  destruct (Qlt_bool 0 ox && Qlt_bool 0 oy); [|discriminate].
  destruct (pushDown getRect A B ox oy); intros [= <-].
  - by apply Adjusted_withY.
  - by apply Adjusted_withX.
Qed.

Lemma pairStep_Adjusted (i j : nat) (st : @RState Fx) :
  Forall2 Adjusted (updated st) (updated (pairStep getRect ensureW ensureH clampY stageW i j st)).
Proof.
  unfold pairStep.
  destruct (updated st !! i) as [A|]; [|apply Forall2_Adjusted_refl].
  destruct (updated st !! j) as [B|] eqn:HB; [|apply Forall2_Adjusted_refl].
  destruct (adjustPair getRect clampY stageW A B) as [nb|] eqn:Hnb; [|apply Forall2_Adjusted_refl].
  simpl. rewrite <- (list_insert_id (updated st) j B HB) at 1.
  apply Forall2_insert; [apply Forall2_Adjusted_refl | by eapply adjustPair_Adjusted].
Qed.

Lemma foldl_Adjusted {I : Type} (f : @RState Fx -> I -> @RState Fx) (js : list I) :
  (forall s j, Forall2 Adjusted (updated s) (updated (f s j))) ->
  forall s, Forall2 Adjusted (updated s) (updated (foldl f s js)).
Proof.
  intros Hf. induction js as [|j js IH]; intros s; simpl.
  - apply Forall2_Adjusted_refl.
  - eapply Forall2_Adjusted_trans; [apply Hf | apply IH].
Qed.

Lemma outerLoop_Adjusted (st : @RState Fx) :
  Forall2 Adjusted (updated st)
    (updated (outerLoop getRect ensureW ensureH clampY stageW st)).
Proof.
  unfold outerLoop. apply foldl_Adjusted. intros s i.
  unfold innerLoop. apply foldl_Adjusted. intros s' j. apply pairStep_Adjusted.
Qed.

Lemma resolvePasses_frame (n : nat) :
  forall (l : list Message) (s : Fx),
    exists l0, l0 ≡ₚ l /\
      Forall2 Adjusted l0
        (fst (resolvePasses getRect ensureW ensureH clampY stageW n l s)).
Proof.
  induction n as [|n IH]; intros l s; simpl.
  - exists l. split; [done | apply Forall2_Adjusted_refl].
  - set (st := resolvePass getRect ensureW ensureH clampY stageW l s).
    assert (Hst : Forall2 Adjusted (sortBy cmpYX l) (updated st))
      by apply (outerLoop_Adjusted (mkRState (sortBy cmpYX l) false s)).
    destruct (changed st).
    + destruct (IH (updated st) (fx st)) as (l1 & Hp1 & Hf1).
      destruct (Forall2_perm_r Adjusted _ _ (symmetry Hp1) _ Hst) as (l0 & Hp0 & Hf0).
      exists l0. split.
      * etrans; [exact Hp0 | apply sortBy_perm].
      * eapply Forall2_Adjusted_trans; [exact Hf0 | exact Hf1].
    + exists (sortBy cmpYX l). split; [apply sortBy_perm | exact Hst].
Qed.

Lemma normalize_Adjusted (m : Message) (s : Fx) :
  Adjusted m (fst (normalize getRect ensureW ensureH clampY m s)).
Proof.
  unfold normalize. destruct (x m) as [mx|] eqn:Hx; [|apply Adjusted_refl].
  destruct (y m) as [my|] eqn:Hy; [|apply Adjusted_refl]. simpl.
  assert (Hp : placed m = true) by (unfold placed; by rewrite Hx, Hy).
  eapply Adjusted_trans; [by apply Adjusted_withX|].
  apply Adjusted_withY. unfold placed, withX. simpl. by rewrite Hy.
Qed.

Lemma normalizeAll_Adjusted (l : list Message) :
  forall s, Forall2 Adjusted l
              (fst (normalizeAll getRect ensureW ensureH clampY l s)).
Proof.
  induction l as [|m l IH]; intros s; simpl; [constructor|].
  pose proof (normalize_Adjusted m s) as Hm.
  destruct (normalize getRect ensureW ensureH clampY m s) as [m' s1].
  specialize (IH s1).
  destruct (normalizeAll getRect ensureW ensureH clampY l s1) as [r s2].
  simpl in *. by constructor.
Qed.

Lemma normalizeAll_placed (l : list Message) :
  forall s m,
    m ∈ fst (normalizeAll getRect ensureW ensureH clampY l s) ->
    placed m = true ->
    exists m0 mx my, m0 ∈ l /\ x m0 = Some mx /\ y m0 = Some my
      /\ x m = Some (snap (Math.max mx EDGE_PADDING))
      /\ y m = Some (clampY my).
Proof.
  induction l as [|a l IH]; intros s m; simpl.
  - intros Hm. by apply elem_of_nil in Hm.
  - destruct (normalize getRect ensureW ensureH clampY a s) as [a' s1] eqn:Ha.
    specialize (IH s1 m).
    destruct (normalizeAll getRect ensureW ensureH clampY l s1) as [r s2].
    simpl in *. intros [->|Hm]%elem_of_cons Hp.
    + unfold normalize in Ha.
      destruct (x a) as [ax|] eqn:Hx; [destruct (y a) as [ay|] eqn:Hy|].
      * injection Ha as <- _. exists a, ax, ay.
        split; [apply list_elem_of_here|]. done.
      * injection Ha as <- _. unfold placed in Hp. by rewrite Hx, Hy in Hp.
      * injection Ha as <- _. unfold placed in Hp. by rewrite Hx in Hp.
    + destruct (IH Hm Hp) as (m0 & mx & my & Hin & ?).
      exists m0, mx, my. split; [by apply list_elem_of_further | done].
Qed.

End ResolverFacts.


Lemma snap_mono (p q : Q) : p <= q -> snap p <= snap q.
Proof.
  intros H. unfold snap, Math.round.
  assert ((Qfloor (p / GRID + (1 # 2)) <= Qfloor (q / GRID + (1 # 2)))%Z) as Hz.
  { apply Qfloor_resp_le. qlin. }
  rewrite Zle_Qle in Hz. qlin.
Qed.

(** [clampYNoBottom] yields a grid coordinate that is not above the top
    edge padding. *)
Lemma clampYNoBottom_spec (q : Q) :
  onGrid (clampYNoBottom q) /\ EDGE_PADDING <= clampYNoBottom q.
Proof.
  unfold clampYNoBottom. split; [apply snap_onGrid|].
  assert (snap EDGE_PADDING == EDGE_PADDING) as E by (by vm_compute).
  assert (EDGE_PADDING <= Math.max EDGE_PADDING q) as Hle
    by (destruct (max_spec EDGE_PADDING q) as [[? ->]|[? ->]]; lra).
  apply snap_mono in Hle. lra.
Qed.

Lemma isSiblings_iff (getRect : Message -> Rect.t) (A B : Message) :
  isSiblings getRect A B = true <-> SiblingsWithin getRect (rowTol getRect A) A B.
Proof.
  unfold isSiblings, SiblingsWithin.
  rewrite !andb_true_iff, sameId_eq, Qle_bool_iff. tauto.
Qed.

Lemma pushDown_iff (getRect : Message -> Rect.t) (A B : Message) :
  pushDown getRect A B (fst (overlapAmount getRect A B))
                       (snd (overlapAmount getRect A B)) = true <->
  PrefersDown getRect A B /\ ~ SiblingsWithin getRect (rowTol getRect A) A B.
Proof.
  unfold pushDown, PrefersDown. rewrite <- isSiblings_iff.
  destruct (isSiblings getRect A B).
  - split; [done | intros [_ H]; by destruct H].
  - rewrite !orb_true_iff, !negb_true_iff, Qle_bool_iff. split.
    + intros H. split; [tauto | done].
    + intros [H _]. tauto.
Qed.

Lemma adjustPair_overlap
    (getRect : Message -> Rect.t) (clampY : Q -> Q) (stageW : Q) (A B : Message) :
  placed A = true -> placed B = true -> TrulyOverlap getRect A B ->
  adjustPair getRect clampY stageW A B =
  Some (if pushDown getRect A B (fst (overlapAmount getRect A B))
                                (snd (overlapAmount getRect A B))
        then pushedDown clampY B (snd (overlapAmount getRect A B))
        else pushedSideways getRect stageW A B (fst (overlapAmount getRect A B))).
Proof.
  intros HA HB [Hox Hoy]. unfold adjustPair. rewrite HA, HB. cbn [andb].
  destruct (overlapAmount getRect A B) as [ox oy]. cbn [fst snd] in *.
  apply Qlt_bool_iff in Hox, Hoy. rewrite Hox, Hoy. cbn [andb].
  by destruct (pushDown getRect A B ox oy).
Qed.

(** C5 (as amended).  For a placed pair with both overlaps positive the
    resolver replaces [B].  When [A] and [B] have the same (non-empty)
    parent id and their tops differ by at most
    [max(GRID, floor(A.h / 2))], [B] is moved sideways.  Otherwise [B] is
    pushed down exactly when the vertical overlap is at least the
    horizontal one or one of the two is a main-chain message, and moved
    sideways when neither holds. *)
Theorem resolver_direction
    (getRect : Message -> Rect.t) (clampY : Q -> Q) (stageW : Q) (A B : Message) :
  placed A = true -> placed B = true -> TrulyOverlap getRect A B ->
  let ox := fst (overlapAmount getRect A B) in
  let oy := snd (overlapAmount getRect A B) in
  let onRow := SiblingsWithin getRect
                 (Math.max GRID (inject_Z (Math.floor (Rect.h (getRect A) / 2)))) A B in
  (onRow ->
   adjustPair getRect clampY stageW A B = Some (pushedSideways getRect stageW A B ox))
  /\ (~ onRow -> PrefersDown getRect A B ->
      adjustPair getRect clampY stageW A B = Some (pushedDown clampY B oy))
  /\ (~ onRow -> ~ PrefersDown getRect A B ->
      adjustPair getRect clampY stageW A B = Some (pushedSideways getRect stageW A B ox)).
Proof.
  intros HA HB Hov ox oy onRow.
  rewrite (adjustPair_overlap getRect clampY stageW A B HA HB Hov).
  fold ox oy. pose proof (pushDown_iff getRect A B) as Hpd. fold ox oy in Hpd.
  change (SiblingsWithin getRect (rowTol getRect A) A B) with onRow in Hpd.
  destruct (pushDown getRect A B ox oy).
  - assert (PrefersDown getRect A B /\ ~ onRow) as [Hd Hn] by by apply Hpd.
    split; [|split]; intros; [tauto | reflexivity | tauto].
  - assert (~ (PrefersDown getRect A B /\ ~ onRow)) as Hn.
    { intros H. apply Hpd in H. discriminate. }
    split; [|split]; intros; [reflexivity | tauto | reflexivity].
Qed.

(** For tops that differ by a whole number of pixels the tolerance of the
    code and half of the height as such admit the same pairs. *)
Lemma rowTol_integral (getRect : Message -> Rect.t) (A : Message) (d : Q) (k : Z) :
  d == inject_Z k ->
  (d <= rowTol getRect A <-> d <= halfHeightTol getRect A).
Proof.
  intros Hd. unfold rowTol, halfHeightTol.
  set (hh := Rect.h (getRect A) / 2).
  destruct (floor_spec hh) as [Flo Fhi].
  assert (Hint : d <= hh -> d <= inject_Z (Math.floor hh)).
  { intros Hle. rewrite Hd in *. rewrite <- Zle_Qle.
    assert (inject_Z k < inject_Z (Math.floor hh + 1)) as Hlt
      by (rewrite inject_Z_plus; change (inject_Z 1) with 1; lra).
    rewrite <- Zlt_Qlt in Hlt. lia. }
  destruct (max_spec GRID (inject_Z (Math.floor hh))) as [[? ->]|[? ->]];
    destruct (max_spec GRID hh) as [[? ->]|[? ->]]; split; intros Hle; try lra;
    specialize (Hint Hle); lra.
Qed.


(** C9.  [resolveOverlaps] only adjusts coordinates: the returned list has
    the length and the ids of the input, it is the input in some order with
    every field other than [x] and [y] kept, and every message whose [x] or
    [y] is null is returned as it is. *)
Theorem resolveOverlaps_frame {Fx : Type}
    (getRect : Message -> Rect.t) (ensureW ensureH : Q -> Q -> Fx -> Fx)
    (clampY : Q -> Q) (stageW : Q) (messages : list Message) (s : Fx) :
  let out := fst (resolveOverlaps getRect ensureW ensureH clampY stageW messages s) in
  length out = length messages
  /\ id <$> out ≡ₚ id <$> messages
  /\ exists l0, l0 ≡ₚ messages /\ Forall2 Adjusted l0 out.
Proof.
  intros out.
  assert (exists l0, l0 ≡ₚ messages /\ Forall2 Adjusted l0 out) as (l0 & Hp & Hf).
  { unfold out, resolveOverlaps.
    destruct (resolvePasses_frame getRect ensureW ensureH clampY stageW
                MAX_RESOLVE_PASSES messages s) as (l0 & Hp & Hf).
    destruct (resolvePasses _ _ _ _ _ _ _ _) as [upd s1]. simpl in Hf.
    exists l0. split; [done|].
    eapply Forall2_Adjusted_trans; [exact Hf | apply normalizeAll_Adjusted]. }
  assert (Hids : id <$> out = id <$> l0).
  { clear Hp. induction Hf as [|m m' l l' Hm _ IH]; [done|].
    rewrite !fmap_cons, IH. f_equal. apply Hm. }
  split; [|split].
  - rewrite <- (Forall2_length _ _ _ Hf). by apply Permutation_length.
  - rewrite Hids. by apply fmap_Permutation.
  - by exists l0.
Qed.

(** ** The placement pass *)

Lemma firstFrom_Some {A : Type} (body : Z -> option A) (n : nat) :
  forall (start : Z) (a : A),
    firstFrom body n start = Some a ->
    exists k, (start <= k < start + Z.of_nat n)%Z /\ body k = Some a.
Proof.
  induction n as [|n IH]; intros start a; simpl; [discriminate|].
  destruct (body start) as [b|] eqn:Hb.
  - intros [= <-]. exists start. split; [lia | done].
  - intros H. destruct (IH _ _ H) as (k & Hk & Hbk). exists k. split; [lia | done].
Qed.

Lemma firstFrom_is_Some {A : Type} (body : Z -> option A) (n : nat) :
  forall (start k : Z),
    (start <= k < start + Z.of_nat n)%Z -> is_Some (body k) ->
    is_Some (firstFrom body n start).
Proof.
  induction n as [|n IH]; intros start k Hk Hb; simpl; [lia|].
  destruct (body start) as [b|] eqn:Hs; [by eexists|].
  apply (IH (start + 1)%Z k); [|done].
  destruct (decide (k = start)) as [->|]; [|lia].
  rewrite Hs in Hb. by destruct Hb.
Qed.

(** Every slot finder answers with a snapped x. *)
Lemma snapped_onGrid (q : Q) : snapped q -> onGrid q.
Proof. intros [n ->]. apply snap_onGrid. Qed.

Lemma findSlotBelow_x (occ : list Cell.t) (pr : Rect.t) (w h : Q) :
  snapped (Pos.x (findSlotBelow occ pr w h)).
Proof.
  unfold findSlotBelow. destruct (firstFrom _ _ _) as [res|] eqn:E.
  - apply firstFrom_Some in E as (k & _ & Hk). unfold belowProbe in Hk.
    repeat match type of Hk with
           | context [if ?b then _ else _] => destruct b
           end; simplify_eq; by eexists.
  - by eexists.
Qed.

Lemma dropScan_Some (occ : list Cell.t) (c : Z) (pr : Rect.t) (w h : Q) (res : Pos.t) :
  dropScan occ c pr w h = Some res ->
  exists row, res = slotAt c row SideBelow.
Proof.
  unfold dropScan. intros H. apply firstFrom_Some in H as (k & _ & Hk).
  destruct (isFreeRect occ c k (spanOf w) (spanOf h)); [|discriminate].
  injection Hk as <-. by exists k.
Qed.

Lemma findSlotBelowAtX_x (occ : list Cell.t) (tx : Q) (pr : Rect.t) (w h : Q) :
  snapped (Pos.x (findSlotBelowAtX occ tx pr w h)).
Proof.
  unfold findSlotBelowAtX. destruct (dropScan _ _ _ _ _) as [res|] eqn:E.
  - apply dropScan_Some in E as [row ->]. by eexists.
  - apply findSlotBelow_x.
Qed.

Lemma findSlotBelowAtCenter_x (occ : list Cell.t) (cx : Q) (pr : Rect.t) (w h : Q) :
  snapped (Pos.x (findSlotBelowAtCenter occ cx pr w h)).
Proof.
  unfold findSlotBelowAtCenter. destruct (dropScan _ _ _ _ _) as [res|] eqn:E.
  - apply dropScan_Some in E as [row ->]. by eexists.
  - apply findSlotBelow_x.
Qed.

Lemma findSideSlotOnRow_x (occ : list Cell.t) (pr : Rect.t) (w h : Q)
    (prefer : option Side) (res : Pos.t) :
  findSideSlotOnRow occ pr w h prefer = Some res -> snapped (Pos.x res).
Proof.
  unfold findSideSlotOnRow. intros H. apply firstFrom_Some in H as (k & _ & Hk).
  destruct prefer as [[| |]|];
    repeat match type of Hk with
           | context [if ?b then _ else _] => destruct b
           end; simplify_eq; by eexists.
Qed.

Lemma choosePlacement_x (cur : list Message) (getRect : Message -> Rect.t)
    (pr : Rect.t) (w h : Q) (ex : list string) (prefer : option Side) :
  snapped (Pos.x (choosePlacement cur getRect pr w h ex prefer)).
Proof.
  unfold choosePlacement. destruct (findSideSlotOnRow _ _ _ _ _) as [res|] eqn:E.
  - by eapply findSideSlotOnRow_x.
  - apply findSlotBelow_x.
Qed.

Module PlacementFacts.
Import Placement.

Lemma sweep_x (rects : list Rect.t) :
forall (c : Rect.t) (ch : bool),
  Rect.x (fst (foldl (fun acc r =>
                        let '(c, ch) := acc in
                        if rectsOverlapPx c r
                        then (Rect.mk (Rect.x c) (snap (Rect.y r + Rect.h r + GAP))
                                      (Rect.w c) (Rect.h c), true)
                        else (c, ch)) (c, ch) rects)) = Rect.x c.
Proof.
induction rects as [|r rects IH]; intros c ch; simpl; [done|].
destruct (rectsOverlapPx c r); by rewrite IH.
Qed.

Lemma stackLoop_x (guard : nat) (rects : list Rect.t) :
forall c, Rect.x (stackLoop guard rects c) = Rect.x c.
Proof.
induction guard as [|g IH]; intros c; simpl; [done|].
pose proof (sweep_x rects c false) as Hs. fold (sweep rects c) in Hs.
destruct (sweep rects c) as [c' ch]. simpl in Hs.
destruct ch; [by rewrite IH | done].
Qed.

Lemma stackBelowAtX_x (v : View) (nxt : list Message) (tx : Q) (pr : Rect.t)
  (sz : Size.t) (ex : string) :
snapped (fst (stackBelowAtX v nxt tx pr sz ex)).
Proof.
unfold stackBelowAtX. cbv beta zeta. cbn [fst]. rewrite stackLoop_x.
cbn [Rect.x]. by eexists.
Qed.

Lemma branchPos_x (v : View) (cur : list Message) (m : Message) (pr : Rect.t)
  (size : Size.t) :
snapped (fst (branchPos v cur m pr size)).
Proof.
unfold branchPos.
destruct (Pos.side (choosePlacement _ _ _ _ _ _ _)); simpl;
  auto using choosePlacement_x, findSlotBelowAtX_x.
Qed.

Lemma threadPos_x (v : View) (cur : list Message) (st : State) (m : Message)
  (p : string) (pr : Rect.t) (size : Size.t) :
snapped (fst (threadPos v cur st m p pr size)).
Proof.
unfold threadPos.
destruct (String.eqb (senderId m) "local-user");
  [destruct (match findById cur p with Some pm => isThread pm | None => false end)|];
  auto using stackBelowAtX_x, branchPos_x.
Qed.

Lemma mainPos_x (v : View) (cur : list Message) (m : Message) (c : Q)
  (pr : Rect.t) (size : Size.t) :
snapped (fst (mainPos v cur m c pr size)).
Proof. unfold mainPos. simpl. apply findSlotBelowAtCenter_x. Qed.

Lemma PlacedBy_refl (m : Message) : PlacedBy m m.
Proof. by left. Qed.

Lemma PlacedBy_trans (m1 m2 m3 : Message) :
PlacedBy m1 m2 -> PlacedBy m2 m3 -> PlacedBy m1 m3.
Proof.
intros [->|(Hu & px & py & -> & Hx & Hy)] H23; [done|].
destruct H23 as [->|(Hu' & _)].
- right. split; [done|]. by exists px, py.
- discriminate.
Qed.

Lemma Forall2_PlacedBy_refl (l : list Message) : Forall2 PlacedBy l l.
Proof. induction l; constructor; auto using PlacedBy_refl. Qed.

Lemma Forall2_PlacedBy_insert (l : list Message) (i : nat) (m : Message) (px py : Q) :
l !! i = Some m -> placed m = false -> snapped px -> snapped py ->
Forall2 PlacedBy l (<[i := withY (withX m px) py]> l).
Proof.
intros Hi Hp Hx Hy. rewrite <- (list_insert_id l i m Hi) at 1.
apply Forall2_insert; [apply Forall2_PlacedBy_refl|].
right. split; [done|]. exists px, py. auto using snapped_onGrid.
Qed.

Lemma clampYNoBottom_snapped (q : Q) : snapped (clampYNoBottom q).
Proof. by eexists. Qed.

Lemma rootY_snapped (v : View) (nxt : list Message) : snapped (rootY v nxt).
Proof.
unfold rootY. destruct (lowestRoot v (placedRootsOf nxt));
  [apply clampYNoBottom_snapped | by eexists].
Qed.

Lemma placeChild_step (v : View) (cur : list Message) (st st' : State)
  (i : nat) (m : Message) (size : Size.t) (p : string) :
next st !! i = Some m -> placed m = false ->
placeChild v cur st i m size p = Some st' ->
Forall2 PlacedBy (next st) (next st').
Proof.
intros Hi Hp. unfold placeChild.
destruct (getPlacedRectById v cur (next st) p) as [pr|];
  [|intros [= <-]; apply Forall2_PlacedBy_refl].
destruct (findById cur p) as [pm|]; [|intros [= <-]; apply Forall2_PlacedBy_refl].
destruct (x pm); [|intros [= <-]; apply Forall2_PlacedBy_refl].
destruct (getRootIdOf cur p) as [rootId|]; simpl; [|discriminate].
destruct (isThread m).
- intros [= <-]. simpl.
  apply Forall2_PlacedBy_insert; auto using threadPos_x, clampYNoBottom_snapped.
- destruct (pinnedCenter v cur st rootId) as [c st1] eqn:Hpin.
  intros [= <-]. simpl.
  assert (next st1 = next st) as ->.
  { unfold pinnedCenter in Hpin. destruct (rootCenters st !! rootId); by simplify_eq. }
  apply Forall2_PlacedBy_insert;
    auto using findSlotBelowAtCenter_x, clampYNoBottom_snapped.
Qed.

Lemma placeAt_step (v : View) (cur : list Message) (i : nat) (st st' : State) :
placeAt v cur i st = Some st' -> Forall2 PlacedBy (next st) (next st').
Proof.
unfold placeAt. destruct (next st !! i) as [m|] eqn:Hi;
  [|intros [= <-]; apply Forall2_PlacedBy_refl].
destruct (placed m) eqn:Hp; [intros [= <-]; apply Forall2_PlacedBy_refl|].
destruct (bubbleSizes v !! id m) as [size|];
  [|intros [= <-]; apply Forall2_PlacedBy_refl].
assert (Hroot : Forall2 PlacedBy (next st) (next (placeRoot v st i m size))).
{ simpl. apply Forall2_PlacedBy_insert; auto using rootY_snapped.
  unfold rootX. by eexists. }
destruct (parentId m) as [p|]; [|by intros [= <-]].
destruct (truthy (Some p)); [|by intros [= <-]].
by apply placeChild_step.
Qed.

Lemma placeAll_fold (v : View) (cur : list Message) (js : list nat) :
forall st st',
  foldl (fun acc i => acc ≫= placeAt v cur i) (Some st) js = Some st' ->
  Forall2 PlacedBy (next st) (next st').
Proof.
induction js as [|j js IH]; intros st st'; simpl.
- intros [= <-]. apply Forall2_PlacedBy_refl.
- destruct (placeAt v cur j st) as [st1|] eqn:Hj.
  + intros H. eapply Forall2_trans; [apply PlacedBy_trans | by eapply placeAt_step | by apply IH].
  + intros H. exfalso. clear -H. induction js as [|k js IHk]; simpl in H; [done | auto].
Qed.

Lemma pass_PlacedBy (v : View) (cur : list Message) (centers0 : gmap string Q)
  (tails0 : gmap string string) (stg : Stage.t) (out : Outcome) :
pass v cur centers0 tails0 stg = Some out ->
Forall2 PlacedBy cur (messages out).
Proof.
unfold pass, placeAll. intros H. apply fmap_Some in H as (st & Hst & ->).
simpl. destruct (changed st); [|apply Forall2_PlacedBy_refl].
by apply placeAll_fold in Hst.
Qed.

Lemma PlacedBy_OnGrid (l l' : list Message) :
Forall2 PlacedBy l l' -> Forall OnGridMsg l -> Forall OnGridMsg l'.
Proof.
induction 1 as [|m m' l l' Hm _ IH]; intros Hl; [constructor|].
inversion Hl as [|? ? Hg Hl']; subst. constructor; [|by apply IH].
destruct Hm as [->|(_ & px & py & -> & Hx & Hy)]; [done|].
unfold OnGridMsg. by simpl.
Qed.

End PlacementFacts.

(** C7.  On a settled layout, where every message has both coordinates, the
    placement pass changes nothing: no message is touched, nothing is
    committed, and the ref maps and the stage size are as before. *)
Theorem pass_settled (v : View) (cur : list Message) (centers0 : gmap string Q)
    (tails0 : gmap string string) (stg : Stage.t) :
  (forall m, m ∈ cur -> placed m = true) ->
  Placement.pass v cur centers0 tails0 stg
  = Some (Placement.mkOutcome cur false centers0 tails0 stg).
Proof.
  intros Hall. unfold Placement.pass, Placement.placeAll.
  set (st0 := Placement.initial cur centers0 tails0 stg).
  assert (Hstep : forall i, Placement.placeAt v cur i st0 = Some st0).
  { intros i. unfold Placement.placeAt.
    destruct (Placement.next st0 !! i) as [m|] eqn:Hi; [|done].
    assert (placed m = true) as ->; [|done].
    apply Hall. by eapply list_elem_of_lookup_2. }
  assert (Hfold : forall js,
             foldl (fun acc i => acc ≫= Placement.placeAt v cur i) (Some st0) js
             = Some st0).
  { induction js as [|j js IH]; simpl; [done|]. by rewrite Hstep. }
  by rewrite Hfold.
Qed.

(** C8 (as amended).  After the overlap resolver, every message that has
    both coordinates has them on the grid.  A placement pass leaves every
    message as it was or gives an unplaced message grid coordinates, so
    after it all placed coordinates are on the grid provided those placed
    before the pass were. *)
Theorem grid_alignment {Fx : Type}
    (getRect : Message -> Rect.t) (ensureW ensureH : Q -> Q -> Fx -> Fx)
    (stageW : Q) (msgs : list Message) (s : Fx)
    (v : View) (cur : list Message) (centers0 : gmap string Q)
    (tails0 : gmap string string) (stg : Stage.t) (out : Placement.Outcome) :
  Placement.pass v cur centers0 tails0 stg = Some out ->
  Forall OnGridMsg
    (fst (resolveOverlaps getRect ensureW ensureH clampYNoBottom stageW msgs s))
  /\ Forall2 PlacedBy cur (Placement.messages out)
  /\ (Forall OnGridMsg cur -> Forall OnGridMsg (Placement.messages out)).
Proof.
  intros Hpass. split; [|split].
  - apply Forall_forall. intros m Hm. unfold resolveOverlaps in Hm.
    destruct (resolvePasses _ _ _ _ _ _ _ _) as [upd s1].
    unfold OnGridMsg. destruct (x m) as [mx|] eqn:Hx; [|done].
    destruct (y m) as [my|] eqn:Hy; [|done].
    assert (Hp : placed m = true) by (unfold placed; by rewrite Hx, Hy).
    destruct (normalizeAll_placed _ _ _ _ _ _ _ Hm Hp)
      as (m0 & ax & ay & _ & _ & _ & Hx' & Hy').
    rewrite Hx in Hx'. rewrite Hy in Hy'. simplify_eq.
    split; [apply snap_onGrid | apply clampYNoBottom_spec].
  - by eapply PlacementFacts.pass_PlacedBy.
  - apply PlacementFacts.PlacedBy_OnGrid. by eapply PlacementFacts.pass_PlacedBy.
Qed.

Lemma toCol_edge (q : Q) : EDGE_PADDING <= q -> (leftEdgeCol <= toCol q)%Z.
Proof.
  intros H. change leftEdgeCol with (toCol EDGE_PADDING).
  unfold toCol, Math.floor. apply Qfloor_resp_le. qlin.
Qed.

Lemma fromCol_toCol_onGrid (q : Q) : fromCol (toCol q) == q <-> onGrid q.
Proof.
  split.
  - intros H. exists (toCol q). symmetry. exact H.
  - intros [k Hk]. change (inject_Z k * GRID) with (fromCol k) in Hk.
    assert (toCol q = k) as ->; [|symmetry; exact Hk].
    rewrite <- (toCol_fromCol k). unfold toCol. apply floor_comp.
    apply Qdiv_comp; [exact Hk | reflexivity].
Qed.

(** C1 (as amended).  A main-chain child whose root has the pinned center
    [C] and for which the fixed-center scan finds a free row among its 1000
    rows is placed with its left edge on the grid column of [C - w / 2]
    (not left of the reserved edge column), whatever the occupancy.  When
    [C - w / 2] is at least the edge padding, its center [x + w / 2] lies
    in [(C - GRID, C]], and it is exactly [C] if and only if [C - w / 2] is
    on the grid. *)
Theorem main_chain_column
    (v : View) (cur : list Message) (st : Placement.State) (i : nat)
    (m : Message) (size : Size.t) (p : string) (pr : Rect.t) (pm : Message)
    (rootId : string) (C : Q) :
  Placement.next st !! i = Some m ->
  isThread m = false ->
  Placement.getPlacedRectById v cur (Placement.next st) p = Some pr ->
  Placement.findById cur p = Some pm -> is_Some (x pm) ->
  getRootIdOf cur p = Some rootId ->
  Placement.rootCenters st !! rootId = Some C ->
  (exists k, (0 <= k < 1000)%Z
             /\ isFreeRect (buildOccupancy cur (getRectFor v) [id m])
                  (centerCol C (Size.w size)) (rowBelow pr + k)
                  (spanOf (Size.w size)) (spanOf (Size.h size)) = true) ->
  exists st' px py,
    Placement.placeChild v cur st i m size p = Some st'
    /\ Placement.next st' !! i = Some (withY (withX m px) py)
    /\ px = fromCol (centerCol C (Size.w size))
    /\ (EDGE_PADDING <= C - Size.w size / 2 ->
        C - GRID < px + Size.w size / 2
        /\ px + Size.w size / 2 <= C
        /\ (px + Size.w size / 2 == C <-> onGrid (C - Size.w size / 2))).
Proof.
  intros Hi Hmain Hpr Hpm [px0 Hpx] Hroot Hpin (k & Hk & Hfree).
  unfold Placement.placeChild. rewrite Hpr, Hpm, Hpx, Hroot. simpl.
  rewrite Hmain. unfold Placement.pinnedCenter. rewrite Hpin.
  set (occ := buildOccupancy cur (getRectFor v) [id m]) in *.
  set (col := centerCol C (Size.w size)) in *.
  assert (exists row, Placement.mainPos v cur m C pr size
                      = (snap (fromCol col), snap (fromRow row))) as [row Hpos].
  { unfold Placement.mainPos, findSlotBelowAtCenter. fold occ col.
    destruct (dropScan occ col pr (Size.w size) (Size.h size)) as [res|] eqn:E.
    - apply dropScan_Some in E as [row ->]. by exists row.
    - exfalso. assert (is_Some (dropScan occ col pr (Size.w size) (Size.h size))) as HS.
      { unfold dropScan. apply (firstFrom_is_Some _ _ _ (rowBelow pr + k)%Z); [lia|].
        by rewrite Hfree. }
      rewrite E in HS. by destruct HS. }
  eexists _, (fromCol col), _. split; [reflexivity|]. split.
  - rewrite Hpos. unfold Placement.assign. cbn [Placement.next Placement.setStage
      Placement.setNext Placement.setLocalTail fst snd].
    rewrite snap_fromCol. apply list_lookup_insert_eq. by eapply lookup_lt_Some.
  - split; [done|]. intros Hedge.
    assert (col = toCol (C - Size.w size / 2)) as ->.
    { unfold col, centerCol. apply Z.max_r. by apply toCol_edge. }
    destruct (toCol_spec (C - Size.w size / 2)) as [Hlo Hhi].
    split; [lra|]. split; [lra|].
    rewrite <- fromCol_toCol_onGrid. split; intros H; lra.
Qed.


(** ** Worked examples *)

(** C1, counterexample.  The root "r1" is 300 wide at x = 360, its pinned
    center is 510.  Its main-chain reply is 310 wide: the pass puts it at
    x = 340, so its center is 495. *)
Lemma main_chain_center_counterexample :
  Placement.messages
    <$> Placement.pass exView [exRoot1Placed; exChild] (<["r1" := 510]> ∅) ∅ exStage
  = Some [exRoot1Placed; exMsg "c" (Some "r1") false (Some 340) (Some 260)]
  /\ ~ (340 + 310 / 2 == 510).
Proof. split; [by vm_compute | qdecide]. Qed.

(** C1, witness: the same reply, placed by the main-chain branch. *)
Lemma main_chain_column_witness :
  exists st' px py,
    Placement.placeChild exView [exRoot1Placed; exChild]
      (Placement.initial [exRoot1Placed; exChild] (<["r1" := 510]> ∅) ∅ exStage)
      1 exChild (Size.mk 310 100) "r1" = Some st'
    /\ Placement.next st' !! 1%nat = Some (withY (withX exChild px) py)
    /\ px = fromCol (centerCol 510 (Size.w (Size.mk 310 100)))
    /\ (EDGE_PADDING <= 510 - Size.w (Size.mk 310 100) / 2 ->
        510 - GRID < px + Size.w (Size.mk 310 100) / 2
        /\ px + Size.w (Size.mk 310 100) / 2 <= 510
        /\ (px + Size.w (Size.mk 310 100) / 2 == 510
            <-> onGrid (510 - Size.w (Size.mk 310 100) / 2))).
Proof.
  apply (main_chain_column exView [exRoot1Placed; exChild]
           (Placement.initial [exRoot1Placed; exChild] (<["r1" := 510]> ∅) ∅ exStage)
           1 exChild (Size.mk 310 100) "r1" (Rect.mk 360 80 300 105)
           exRoot1Placed "r1" 510).
  - reflexivity.
  - reflexivity.
  - vm_compute. reflexivity.
  - vm_compute. reflexivity.
  - exists 360. reflexivity.
  - vm_compute. reflexivity.
  - vm_compute. reflexivity.
  - exists 1%Z. split; [lia | vm_compute; reflexivity].
Defined.



(** C3, counterexample.  A 300 x 100 bubble at (200, 200): its converted
    rectangle starts at column 10, row 10.  The occupancy rectangle starts
    at row 10 as well, not at row 9. *)
Lemma occupancy_all_sides_counterexample :
  buildOccupancy [exBubble] (getRectFor exView) []
  = [Cell.mk (Some "a") 9 10 19 9]
  /\ padAllSides padCells (convertedCell (getRectFor exView) exBubble)
     = Cell.mk (Some "a") 9 9 19 9
  /\ buildOccupancy [exBubble] (getRectFor exView) []
     <> [padAllSides padCells (convertedCell (getRectFor exView) exBubble)].
Proof.
  split; [by vm_compute|]. split; [by vm_compute|].
  intros H. vm_compute in H. discriminate H.
Qed.

(** C3, witness: the occupancy rectangle of that bubble. *)
Lemma buildOccupancy_footprint_witness :
  exists m, m ∈ [exBubble] /\ occupies [] m /\
    let c := Cell.mk (Some "a") 9 10 19 9 in
    let k := convertedCell (getRectFor exView) m in
    Cell.id c = Some (id m)
    /\ Cell.col c = Z.max leftEdgeCol (Cell.col k - padCells)
    /\ Cell.row c = Z.max leftEdgeCol (Cell.row k)
    /\ Cell.spanX c = (Cell.spanX k + 2 * padCells)%Z
    /\ Cell.spanY c = (Cell.spanY k + 2 * padCells)%Z
    /\ ((leftEdgeCol <= Cell.col k - padCells)%Z ->
        Cell.col c = (Cell.col k - padCells)%Z
        /\ (Cell.col c + Cell.spanX c = Cell.col k + Cell.spanX k + padCells)%Z)
    /\ ((leftEdgeCol <= Cell.row k)%Z ->
        Cell.row c = Cell.row k
        /\ (Cell.row c + Cell.spanY c = Cell.row k + Cell.spanY k + 2 * padCells)%Z).
Proof.
  apply (buildOccupancy_footprint (getRectFor exView) [exBubble] []
           (Cell.mk (Some "a") 9 10 19 9)).
  vm_compute. apply list_elem_of_here.
Defined.



(** C5, counterexample.  "A5" is 101 high, the tops of the two siblings
    differ by 50.5: that is within half of the height, yet above
    [floor(101 / 2) = 50].  The overlaps are 20 wide and 50.5 high and "B5"
    is pushed down to y = 200, its x stays 380. *)
Lemma resolver_half_height_counterexample :
  placed exSibA = true /\ placed exSibB = true
  /\ TrulyOverlap (getRectFor exView) exSibA exSibB
  /\ SiblingsWithin (getRectFor exView)
       (halfHeightTol (getRectFor exView) exSibA) exSibA exSibB
  /\ adjustPair (getRectFor exView) clampYNoBottom 1000 exSibA exSibB
     = Some (withY exSibB 200)
  /\ withY exSibB 200
     <> pushedSideways (getRectFor exView) 1000 exSibA exSibB
          (fst (overlapAmount (getRectFor exView) exSibA exSibB)).
Proof.
  split; [reflexivity|]. split; [reflexivity|].
  split; [split; qdecide|].
  split; [split; [reflexivity|split; [reflexivity|qdecide]]|].
  split; [qdecide|]. intros H. vm_compute in H. discriminate H.
Qed.

(** C5, witness: the pair of the push-down example. *)
Lemma resolver_direction_witness :
  let getRect := getRectFor exView in
  let ox := fst (overlapAmount getRect exTall exBelow) in
  let oy := snd (overlapAmount getRect exTall exBelow) in
  let onRow := SiblingsWithin getRect
                 (Math.max GRID (inject_Z (Math.floor (Rect.h (getRect exTall) / 2))))
                 exTall exBelow in
  (onRow ->
   adjustPair getRect clampYNoBottom 1000 exTall exBelow
   = Some (pushedSideways getRect 1000 exTall exBelow ox))
  /\ (~ onRow -> PrefersDown getRect exTall exBelow ->
      adjustPair getRect clampYNoBottom 1000 exTall exBelow
      = Some (pushedDown clampYNoBottom exBelow oy))
  /\ (~ onRow -> ~ PrefersDown getRect exTall exBelow ->
      adjustPair getRect clampYNoBottom 1000 exTall exBelow
      = Some (pushedSideways getRect 1000 exTall exBelow ox)).
Proof.
  apply (resolver_direction (getRectFor exView) clampYNoBottom 1000 exTall exBelow).
  - reflexivity.
  - reflexivity.
  - split; vm_compute; reflexivity.
Defined.

(** C7, witness: a single placed root. *)
Lemma pass_settled_witness :
  Placement.pass exView [exRoot1Placed] ∅ ∅ exStage
  = Some (Placement.mkOutcome [exRoot1Placed] false ∅ ∅ exStage).
Proof.
  apply (pass_settled exView [exRoot1Placed] ∅ ∅ exStage).
  intros m Hm. apply list_elem_of_singleton in Hm. rewrite Hm. reflexivity.
Defined.

(** C8, counterexample.  A bubble that a drag left at (33, 47) is still
    there after a placement pass; 33 is not a multiple of the grid size. *)
Lemma grid_alignment_counterexample :
  Placement.pass exView [exDragged] ∅ ∅ exStage
  = Some (Placement.mkOutcome [exDragged] false ∅ ∅ exStage)
  /\ x exDragged = Some 33
  /\ ~ onGrid 33.
Proof.
  split; [by vm_compute|]. split; [reflexivity|].
  intros [k Hk]. unfold Qeq in Hk. simpl in Hk. lia.
Qed.

(** C8, witness: the resolver run on three bubbles, and the pass that places
    the second root and pins its center [400 + 200 / 2]. *)
Lemma grid_alignment_witness :
  Forall OnGridMsg
    (fst (resolveOverlaps (getRectFor exView) (ensureWidthForRect exView)
            (ensureHeightForRect exView) clampYNoBottom 1000
            [exTall; exInside; exDragged] exStage))
  /\ Forall2 PlacedBy [exRoot1Placed; exRoot2]
       [exRoot1Placed; exMsg "r2" None false (Some 400) (Some 240)]
  /\ (Forall OnGridMsg [exRoot1Placed; exRoot2] ->
      Forall OnGridMsg [exRoot1Placed; exMsg "r2" None false (Some 400) (Some 240)]).
Proof.
  apply (grid_alignment (getRectFor exView) (ensureWidthForRect exView)
           (ensureHeightForRect exView) 1000 [exTall; exInside; exDragged] exStage
           exView [exRoot1Placed; exRoot2] ∅ ∅ exStage
           (Placement.mkOutcome
              [exRoot1Placed; exMsg "r2" None false (Some 400) (Some 240)]
              true (<["r2" := 1000 # 2]> ∅) ∅
              (Stage.mk 1000 800))).
  vm_compute. reflexivity.
Defined.



(** * Further properties of the layout code *)

(** ** utils/grid.js *)

(** X1.  [snap] is idempotent, and it leaves a number where it is exactly
    when the number already is a multiple of the grid size. *)
Theorem snap_fixpoint (n : Q) :
  snap (snap n) = snap n /\ (snap n == n <-> onGrid n).
Proof.
  split.
  - unfold snap at 2 3. apply (snap_fromCol (Math.round (n / GRID))).
  - split.
    + intros H. exists (Math.round (n / GRID)). symmetry. exact H.
    + intros [k Hk]. change (inject_Z k * GRID) with (fromCol k) in Hk.
      rewrite (snap_comp n (fromCol k) Hk), snap_fromCol. symmetry. exact Hk.
Qed.

(** X2.  [snap] rounds to a nearest multiple of the grid size: the result
    is within half a grid unit, and no multiple of the grid size is closer. *)
Theorem snap_nearest (q : Q) :
  (q - GRID / 2 < snap q /\ snap q <= q + GRID / 2)
  /\ forall g, onGrid g -> Qabs (snap q - q) <= Qabs (g - q).
Proof.
  split; [apply snap_spec|]. intros g [j Hj].
  destruct (snap_spec q) as [Hlo Hhi].
  pose proof (Qle_Qabs (g - q)) as Ha1.
  pose proof (Qle_Qabs (- (g - q))) as Ha2. rewrite Qabs_opp in Ha2.
  apply Qabs_Qle_condition.
  set (k := Math.round (q / GRID)) in *.
  assert (Hs : snap q == inject_Z k * GRID) by reflexivity.
  destruct (Z.lt_trichotomy j k) as [Hlt|[->|Hgt]].
  - assert (Hz : (j + 1 <= k)%Z) by lia. rewrite Zle_Qle, inject_Z_plus in Hz.
    change (inject_Z 1) with 1 in Hz.
    generalize dependent (Qabs (g - q)). intros. qlin.
  - generalize dependent (Qabs (g - q)). intros. qlin.
  - assert (Hz : (k + 1 <= j)%Z) by lia. rewrite Zle_Qle, inject_Z_plus in Hz.
    change (inject_Z 1) with 1 in Hz.
    generalize dependent (Qabs (g - q)). intros. qlin.
Qed.

(** X3.  Cells and pixels: [toCol] undoes [fromCol] (and [toRow] undoes
    [fromRow]), and [fromCol (toCol x)] is the left edge of the cell that
    holds [x]. *)
Theorem cell_roundtrip (c : Z) (xv : Q) :
  toCol (fromCol c) = c /\ toRow (fromRow c) = c
  /\ fromCol (toCol xv) <= xv /\ xv < fromCol (toCol xv) + GRID.
Proof.
  split; [apply toCol_fromCol|]. split; [apply (toCol_fromCol c)|].
  apply toCol_spec.
Qed.

(** X4.  [clamp(n, min, max)] lies between its bounds and is [n] when [n]
    does; when the bounds are crossed ([max < min]) it is [min]. *)
Theorem clamp_range (n lo hi : Q) :
  (lo <= hi ->
   lo <= clamp n lo hi /\ clamp n lo hi <= hi
   /\ (lo <= n -> n <= hi -> clamp n lo hi == n))
  /\ (hi < lo -> clamp n lo hi = lo).
Proof.
  unfold clamp. split.
  - intros Hb.
    destruct (min_spec hi n) as [[? ->]|[? ->]];
      [destruct (max_spec lo hi) as [[? ->]|[? ->]]
      |destruct (max_spec lo n) as [[? ->]|[? ->]]];
      repeat split; intros; lra.
  - intros Hb.
    destruct (min_spec hi n) as [[? ->]|[? ->]];
      [destruct (max_spec lo hi) as [[? ->]|[? ->]]
      |destruct (max_spec lo n) as [[? ->]|[? ->]]]; try lra; reflexivity.
Qed.

(** ** layout/placement.js *)

Lemma firstFrom_first {A : Type} (body : Z -> option A) (n : nat) :
  forall (start : Z) (a : A),
    firstFrom body n start = Some a ->
    exists k, (start <= k < start + Z.of_nat n)%Z /\ body k = Some a
              /\ forall j, (start <= j < k)%Z -> body j = None.
Proof.
  induction n as [|n IH]; intros start a; simpl; [discriminate|].
  destruct (body start) as [b|] eqn:Hb.
  - intros [= <-]. exists start. split; [lia|]. split; [done|]. intros j Hj. lia.
  - intros H. destruct (IH _ _ H) as (k & Hk & Hbk & Hmin). exists k.
    split; [lia|]. split; [done|]. intros j Hj.
    destruct (decide (j = start)) as [->|]; [done | apply Hmin; lia].
Qed.

Lemma firstFrom_None {A : Type} (body : Z -> option A) (n : nat) :
  forall start : Z,
    firstFrom body n start = None ->
    forall k, (start <= k < start + Z.of_nat n)%Z -> body k = None.
Proof.
  induction n as [|n IH]; intros start; simpl; [intros _ k Hk; lia|].
  destruct (body start) as [b|] eqn:Hb; [discriminate|].
  intros H k Hk. destruct (decide (k = start)) as [->|]; [done|].
  apply (IH _ H). lia.
Qed.

Lemma isFreeRect_spec (occ : list Cell.t) (col row sx sy : Z) :
  isFreeRect occ col row sx sy = true <->
  (leftEdgeCol <= col)%Z
  /\ forall r, r ∈ occ ->
       rectsOverlap r (Cell.mk None (col - padCells) row
                         (sx + padCells * 2) (sy + padCells * 2)) = false.
Proof.
  unfold isFreeRect. destruct (col <? leftEdgeCol)%Z eqn:E.
  - apply Z.ltb_lt in E. split; [discriminate | intros [? _]; lia].
  - apply Z.ltb_ge in E. rewrite negb_true_iff. split.
    + intros H. split; [done|]. intros r Hr.
      destruct (rectsOverlap r _) eqn:Hov; [|done].
      assert (existsb (fun r => rectsOverlap r
                (Cell.mk None (col - padCells) row (sx + padCells * 2)
                   (sy + padCells * 2))) occ = true) as Hex.
      { apply existsb_exists. exists r. split; [by apply list_elem_of_In | done]. }
      congruence.
    + intros [_ H]. destruct (existsb _ occ) eqn:Hex; [|done].
      apply existsb_exists in Hex as (r & Hr & Hov).
      rewrite (H r) in Hov; [done | by apply list_elem_of_In].
Qed.

(** X5.  A slot that is free stays free when rectangles are taken away from
    the occupancy, and no slot left of the reserved edge column is free. *)
Theorem isFreeRect_subset (occ occ' : list Cell.t) (col row sx sy : Z) :
  (forall r, r ∈ occ -> r ∈ occ') ->
  isFreeRect occ' col row sx sy = true ->
  isFreeRect occ col row sx sy = true /\ (leftEdgeCol <= col)%Z.
Proof.
  intros Hsub H. apply isFreeRect_spec in H as [He Hall].
  split; [|done]. apply isFreeRect_spec. split; [done|]. auto.
Qed.

Lemma spanOf_cover (n : Q) : n + PADDING <= inject_Z (spanOf n) * GRID.
Proof.
  unfold spanOf, Math.ceil.
  pose proof (Qle_ceiling ((n + PADDING) / GRID)) as Hc.
  assert (Hz : (Qceiling ((n + PADDING) / GRID)
                <= Z.max 1 (Qceiling ((n + PADDING) / GRID)))%Z) by lia.
  rewrite Zle_Qle in Hz. qlin.
Qed.

(** X6.  A free slot keeps its distance.  If [isFreeRect] accepts the cell
    [(col, row)] for a bubble of size [w x h] against the occupancy of
    [buildOccupancy], then the bubble put at [(fromCol col, fromRow row)]
    is separated by at least [PADDING + GRID] pixels, horizontally or
    vertically, from every placed, non-excluded message whose top is not
    above the top edge padding. *)
Theorem free_slot_clearance
    (getRect : Message -> Rect.t) (cur : list Message) (excludeIds : list string)
    (col row : Z) (w h : Q) (m : Message) :
  isFreeRect (buildOccupancy cur getRect excludeIds) col row (spanOf w) (spanOf h)
  = true ->
  m ∈ cur -> placed m = true -> id m ∉ excludeIds ->
  EDGE_PADDING <= Rect.y (getRect m) ->
  let r := getRect m in
  fromCol col + w + (PADDING + GRID) <= Rect.x r
  \/ Rect.x r + Rect.w r + (PADDING + GRID) <= fromCol col
  \/ fromRow row + h + (PADDING + GRID) <= Rect.y r
  \/ Rect.y r + Rect.h r + (PADDING + GRID) <= fromRow row.
Proof.
  intros Hfree Hin Hp Hex Hy r.
  apply isFreeRect_spec in Hfree as [Hedge Hall].
  assert (Hcell : getMsgGridRect getRect m ∈ buildOccupancy cur getRect excludeIds).
  { apply buildOccupancy_elem. exists m. by repeat split. }
  specialize (Hall _ Hcell). unfold rectsOverlap in Hall.
  apply negb_false_iff in Hall. cbn [Cell.col Cell.row Cell.spanX Cell.spanY
    getMsgGridRect] in Hall. fold r in Hall.
  destruct constants_values as (_ & Epad & Eedge & _).
  rewrite Epad, Eedge in *.
  pose proof (toCol_spec (Rect.x r)) as [Hx1 Hx2].
  pose proof (toCol_spec (Rect.y r)) as [Hy1 Hy2].
  change (toCol (Rect.y r)) with (toRow (Rect.y r)) in Hy1, Hy2.
  fold r in Hy. pose proof (toCol_edge _ Hy) as Hrow. rewrite Eedge in Hrow.
  change (toCol (Rect.y r)) with (toRow (Rect.y r)) in Hrow.
  pose proof (spanOf_cover w) as Sw. pose proof (spanOf_cover h) as Sh.
  pose proof (spanOf_cover (Rect.w r)) as Smw.
  pose proof (spanOf_cover (Rect.h r)) as Smh.
  assert (Hsx : (1 <= spanOf w)%Z) by (unfold spanOf; lia).
  unfold fromCol, fromRow in *.
  set (tc := toCol (Rect.x r)) in *. set (tr := toRow (Rect.y r)) in *.
  set (sw := spanOf w) in *. set (sh := spanOf h) in *.
  set (smw := spanOf (Rect.w r)) in *. set (smh := spanOf (Rect.h r)) in *.
  apply orb_true_iff in Hall as [Hall|Hd].
  apply orb_true_iff in Hall as [Hall|Hc].
  apply orb_true_iff in Hall as [Ha|Hb].
  - right. left. apply Z.leb_le in Ha.
    assert (Hz : (tc + smw + 2 <= col)%Z) by lia. zq Hz. qlin.
  - left. apply Z.leb_le in Hb.
    assert (Hz : (col + sw + 2 <= tc)%Z) by lia. zq Hz. qlin.
  - right. right. right. apply Z.leb_le in Hc.
    assert (Hz : (tr + smh + 2 <= row)%Z) by lia. zq Hz. qlin.
  - right. right. left. apply Z.leb_le in Hd.
    assert (Hz : (row + sh + 2 <= tr)%Z) by lia. zq Hz. qlin.
Qed.

Lemma snap_fromRow (r : Z) : snap (fromRow r) = fromRow r.
Proof. apply (snap_fromCol r). Qed.

Lemma findSideSlotOnRow_shape (occ : list Cell.t) (pr : Rect.t) (w h : Q)
    (prefer : option Side) (res : Pos.t) :
  findSideSlotOnRow occ pr w h prefer = Some res ->
  exists k col side,
    (0 <= k <= 500)%Z
    /\ isFreeRect occ col (toRow (Rect.y pr)) (spanOf w) (spanOf h) = true
    /\ res = slotAt col (toRow (Rect.y pr)) side
    /\ ((side = SideRight
         /\ col = (toCol (Rect.x pr + Rect.w pr) + sideGapCells + k)%Z)
        \/ (side = SideLeft
            /\ col = (toCol (Rect.x pr) - sideGapCells - spanOf w - k)%Z)).
Proof.
  unfold findSideSlotOnRow. intros H. apply firstFrom_Some in H as (k & Hk & Hb).
  assert (Hr : (0 <= k <= 500)%Z) by (change (Z.max MAX_SCAN 200) with 500%Z in Hk; lia).
  exists k.
  destruct (isFreeRect occ (toCol (Rect.x pr + Rect.w pr) + sideGapCells + k)
              (toRow (Rect.y pr)) (spanOf w) (spanOf h)) eqn:ER;
    destruct (isFreeRect occ (toCol (Rect.x pr) - sideGapCells - spanOf w - k)
                (toRow (Rect.y pr)) (spanOf w) (spanOf h)) eqn:EL;
    destruct (leftEdgeCol <=? toCol (Rect.x pr) - sideGapCells - spanOf w - k)%Z;
    destruct prefer as [[| |]|]; cbn [andb] in Hb; simplify_eq;
    eexists _, _; (split; [exact Hr|]); (split; [|split; [reflexivity|]]);
    first [ by (left; split; [reflexivity|reflexivity])
          | by (right; split; [reflexivity|reflexivity])
          | exact ER | exact EL | idtac ].
  all: first [exact ER | exact EL | by (left; split) | by (right; split)].
Qed.

(** X7.  A slot that [findSideSlotOnRow] returns is free, sits on the row of
    the parent's top, and is never a below-slot: on the right it starts
    more than five grid units right of the parent's right edge, on the left
    it ends [PADDING] plus six grid units before the parent's left edge and
    is not left of the edge padding. *)
Theorem findSideSlotOnRow_sound (occ : list Cell.t) (pr : Rect.t) (w h : Q)
    (prefer : option Side) (res : Pos.t) :
  findSideSlotOnRow occ pr w h prefer = Some res ->
  (exists col, isFreeRect occ col (toRow (Rect.y pr)) (spanOf w) (spanOf h) = true
               /\ Pos.x res = fromCol col)
  /\ Pos.y res = fromRow (toRow (Rect.y pr))
  /\ Rect.y pr - GRID < Pos.y res /\ Pos.y res <= Rect.y pr
  /\ EDGE_PADDING <= Pos.x res
  /\ ((Pos.side res = SideRight
       /\ Rect.x pr + Rect.w pr + 5 * GRID < Pos.x res)
      \/ (Pos.side res = SideLeft
          /\ Pos.x res + w + PADDING + 6 * GRID <= Rect.x pr)).
Proof.
  intros H. apply findSideSlotOnRow_shape in H
    as (k & col & side & Hk & Hfree & -> & Hside).
  cbn [slotAt Pos.x Pos.y Pos.side]. rewrite snap_fromCol, snap_fromRow.
  pose proof (isFreeRect_edge _ _ _ _ _ Hfree) as Hedge. apply Z.leb_le in Hedge.
  destruct constants_values as (_ & _ & Eedge & Eside). rewrite Eedge in Hedge.
  rewrite Eside in Hside.
  pose proof (toCol_spec (Rect.y pr)) as [Hy1 Hy2].
  pose proof (toCol_spec (Rect.x pr)) as [Hx1 Hx2].
  pose proof (toCol_spec (Rect.x pr + Rect.w pr)) as [Hr1 Hr2].
  pose proof (spanOf_cover w) as Sw.
  zq Hedge. unfold fromCol, fromRow in *.
  change (toRow (Rect.y pr)) with (toCol (Rect.y pr)).
  split; [by exists col|]. split; [reflexivity|].
  split; [qlin|]. split; [qlin|]. split; [qlin|].
  destruct Hside as [[-> ->]|[-> ->]]; [left | right]; (split; [reflexivity|]).
  - destruct Hk as [Hk _]. zq Hk.
    rewrite !inject_Z_plus. change (inject_Z 6) with 6. qlin.
  - destruct Hk as [Hk _]. zq Hk. unfold Zminus.
    rewrite !inject_Z_plus, !inject_Z_opp. change (inject_Z 6) with 6. qlin.
Qed.

(** X8.  [findSideSlotOnRow] gives up only when the row is blocked: if it
    returns null, none of the 501 right candidates is free, and none of the
    left candidates that lie right of the reserved edge is. *)
Theorem findSideSlotOnRow_exhausted (occ : list Cell.t) (pr : Rect.t) (w h : Q)
    (prefer : option Side) (k : Z) :
  findSideSlotOnRow occ pr w h prefer = None ->
  (0 <= k <= 500)%Z ->
  isFreeRect occ (toCol (Rect.x pr + Rect.w pr) + sideGapCells + k)
    (toRow (Rect.y pr)) (spanOf w) (spanOf h) = false
  /\ isFreeRect occ (toCol (Rect.x pr) - sideGapCells - spanOf w - k)
       (toRow (Rect.y pr)) (spanOf w) (spanOf h) = false.
Proof.
  unfold findSideSlotOnRow. intros H Hk.
  pose proof (firstFrom_None _ _ _ H k) as Hb.
  change (Z.max MAX_SCAN 200) with 500%Z in Hb. specialize (Hb ltac:(lia)).
  cbv beta in Hb.
  rewrite (guard_free occ (toCol (Rect.x pr) - sideGapCells - spanOf w - k)) in Hb.
  destruct (isFreeRect occ (toCol (Rect.x pr + Rect.w pr) + sideGapCells + k) _ _ _);
    destruct (isFreeRect occ (toCol (Rect.x pr) - sideGapCells - spanOf w - k) _ _ _);
    destruct prefer as [[| |]|]; try discriminate; done.
Qed.

Lemma dropScan_first (occ : list Cell.t) (c : Z) (pr : Rect.t) (w h : Q) (res : Pos.t) :
  dropScan occ c pr w h = Some res ->
  exists k, (0 <= k < 1000)%Z
            /\ res = slotAt c (rowBelow pr + k) SideBelow
            /\ isFreeRect occ c (rowBelow pr + k) (spanOf w) (spanOf h) = true
            /\ forall j, (0 <= j < k)%Z ->
                 isFreeRect occ c (rowBelow pr + j) (spanOf w) (spanOf h) = false.
Proof.
  unfold dropScan. intros H. apply firstFrom_first in H as (r & Hr & Hb & Hmin).
  exists (r - rowBelow pr)%Z. replace (rowBelow pr + (r - rowBelow pr))%Z with r by lia.
  split; [lia|].
  destruct (isFreeRect occ c r (spanOf w) (spanOf h)) eqn:E; [|discriminate].
  split; [congruence|]. split; [done|]. intros j Hj.
  specialize (Hmin (rowBelow pr + j)%Z ltac:(lia)). cbv beta in Hmin.
  by destruct (isFreeRect occ c (rowBelow pr + j) (spanOf w) (spanOf h)).
Qed.

Lemma dropScan_None (occ : list Cell.t) (c : Z) (pr : Rect.t) (w h : Q) :
  dropScan occ c pr w h = None ->
  forall j, (0 <= j < 1000)%Z ->
    isFreeRect occ c (rowBelow pr + j) (spanOf w) (spanOf h) = false.
Proof.
  unfold dropScan. intros H j Hj.
  pose proof (firstFrom_None _ _ _ H (rowBelow pr + j)%Z ltac:(lia)) as Hb.
  cbv beta in Hb.
  by destruct (isFreeRect occ c (rowBelow pr + j) (spanOf w) (spanOf h)).
Qed.

(** X9.  [findSlotBelowAtX] and [findSlotBelowAtCenter] keep their column
    and take the topmost free row among the 1000 rows from the row below
    the parent on; only when all of these rows are blocked do they answer
    what [findSlotBelow] answers. *)
Theorem fixed_column_scan (occ : list Cell.t) (targetLeftX targetCenterX : Q)
    (pr : Rect.t) (w h : Q) :
  let free c j := isFreeRect occ c (rowBelow pr + j) (spanOf w) (spanOf h) in
  let scan c res :=
    (exists k, (0 <= k < 1000)%Z
               /\ res = slotAt c (rowBelow pr + k) SideBelow
               /\ free c k = true
               /\ forall j, (0 <= j < k)%Z -> free c j = false)
    \/ ((forall j, (0 <= j < 1000)%Z -> free c j = false)
        /\ res = findSlotBelow occ pr w h) in
  scan (Z.max leftEdgeCol (toCol targetLeftX))
       (findSlotBelowAtX occ targetLeftX pr w h)
  /\ scan (centerCol targetCenterX w)
          (findSlotBelowAtCenter occ targetCenterX pr w h).
Proof.
  intros free scan. split.
  - unfold findSlotBelowAtX. destruct (dropScan _ _ _ _ _) as [res|] eqn:E.
    + left. by apply dropScan_first.
    + right. split; [by apply dropScan_None | done].
  - unfold findSlotBelowAtCenter. destruct (dropScan _ _ _ _ _) as [res|] eqn:E.
    + left. by apply dropScan_first.
    + right. split; [by apply dropScan_None | done].
Qed.

Lemma slot_below_parent (pr : Rect.t) (c row : Z) (s : Side) :
  (rowBelow pr <= row)%Z ->
  Rect.y pr + Rect.h pr + 2 * GRID < Pos.y (slotAt c row s).
Proof.
  intros Hrow. cbn [slotAt Pos.y]. rewrite snap_fromRow. unfold rowBelow in Hrow.
  destruct constants_values as (Egap & _). rewrite Egap in Hrow.
  pose proof (toCol_spec (Rect.y pr + Rect.h pr)) as [_ Hb].
  change (toCol (Rect.y pr + Rect.h pr)) with (toRow (Rect.y pr + Rect.h pr)) in Hb.
  zq Hrow. unfold fromRow, fromCol in *. qlin.
Qed.

Lemma findSlotBelow_below (occ : list Cell.t) (pr : Rect.t) (w h : Q) :
  Rect.y pr + Rect.h pr + 2 * GRID < Pos.y (findSlotBelow occ pr w h).
Proof.
  unfold findSlotBelow. destruct (firstFrom _ _ _) as [res|] eqn:E.
  - apply firstFrom_Some in E as (k & _ & Hk). unfold belowProbe in Hk.
    repeat match type of Hk with
           | context [if ?b then _ else _] => destruct b
           end; simplify_eq; by apply slot_below_parent.
  - cbn [belowFallback Pos.y].
    destruct (snap_spec (Rect.y pr + GAP + Rect.h pr)) as [Hlo _]. qlin.
Qed.

(** X10.  Whatever the occupancy, the three below-finders answer with a top
    edge more than two grid units below the bottom edge of the parent. *)
Theorem below_finders_below (occ : list Cell.t) (tx cx : Q) (pr : Rect.t) (w h : Q) :
  Rect.y pr + Rect.h pr + 2 * GRID < Pos.y (findSlotBelow occ pr w h)
  /\ Rect.y pr + Rect.h pr + 2 * GRID < Pos.y (findSlotBelowAtX occ tx pr w h)
  /\ Rect.y pr + Rect.h pr + 2 * GRID < Pos.y (findSlotBelowAtCenter occ cx pr w h).
Proof.
  split; [apply findSlotBelow_below|]. split.
  - unfold findSlotBelowAtX. destruct (dropScan _ _ _ _ _) as [res|] eqn:E.
    + apply dropScan_first in E as (k & Hk & -> & _). apply slot_below_parent. lia.
    + apply findSlotBelow_below.
  - unfold findSlotBelowAtCenter. destruct (dropScan _ _ _ _ _) as [res|] eqn:E.
    + apply dropScan_first in E as (k & Hk & -> & _). apply slot_below_parent. lia.
    + apply findSlotBelow_below.
Qed.

(** ** layout/resolveOverlaps.js *)

(** Case analysis on every [Math.max] and [Math.min] in sight. *)
Ltac qcases :=
  repeat match goal with
         | |- context [Math.max ?a ?b] =>
             let H := fresh in let E := fresh in
             destruct (max_spec a b) as [[H E]|[H E]]; rewrite ?E in *; clear E
         | |- context [Math.min ?a ?b] =>
             let H := fresh in let E := fresh in
             destruct (min_spec a b) as [[H E]|[H E]]; rewrite ?E in *; clear E
         | H0 : context [Math.max ?a ?b] |- _ =>
             let H := fresh in let E := fresh in
             destruct (max_spec a b) as [[H E]|[H E]]; rewrite ?E in *; clear E
         | H0 : context [Math.min ?a ?b] |- _ =>
             let H := fresh in let E := fresh in
             destruct (min_spec a b) as [[H E]|[H E]]; rewrite ?E in *; clear E
         end.

(** X11.  The overlap amounts are never negative and do not depend on the
    order of the two messages. *)
Theorem overlapAmount_symmetric (getRect : Message -> Rect.t) (A B : Message) :
  0 <= fst (overlapAmount getRect A B)
  /\ 0 <= snd (overlapAmount getRect A B)
  /\ fst (overlapAmount getRect A B) == fst (overlapAmount getRect B A)
  /\ snd (overlapAmount getRect A B) == snd (overlapAmount getRect B A).
Proof.
  unfold overlapAmount. cbn [fst snd].
  set (ax := Rect.x (getRect A)). set (aw := Rect.w (getRect A)).
  set (ay := Rect.y (getRect A)). set (ah := Rect.h (getRect A)).
  set (bx := Rect.x (getRect B)). set (bw := Rect.w (getRect B)).
  set (by' := Rect.y (getRect B)). set (bh := Rect.h (getRect B)).
  assert (Hsym : forall a1 a2 b1 b2 : Q,
             0 <= Math.max 0 (Math.min a2 b2 - Math.max a1 b1)
             /\ Math.max 0 (Math.min a2 b2 - Math.max a1 b1)
                == Math.max 0 (Math.min b2 a2 - Math.max b1 a1)).
  { intros a1 a2 b1 b2. qcases; split; lra. }
  destruct (Hsym ax (ax + aw) bx (bx + bw)) as [? ?].
  destruct (Hsym ay (ay + ah) by' (by' + bh)) as [? ?]. done.
Qed.

Lemma overlap_positive (a1 a2 b1 b2 : Q) :
  0 < Math.max 0 (Math.min a2 b2 - Math.max a1 b1)
  <-> a1 < a2 /\ a1 < b2 /\ b1 < a2 /\ b1 < b2.
Proof. qcases; split; intros; try lra; repeat split; lra. Qed.

(** X12.  For bubbles of positive size the resolver and the placement pass
    agree on what an overlap is: both overlap amounts are positive exactly
    when [rectsOverlapPx] holds of the two rectangles. *)
Theorem overlap_tests_agree (getRect : Message -> Rect.t) (A B : Message) :
  0 < Rect.w (getRect A) -> 0 < Rect.h (getRect A) ->
  0 < Rect.w (getRect B) -> 0 < Rect.h (getRect B) ->
  (TrulyOverlap getRect A B
   <-> Placement.rectsOverlapPx (getRect A) (getRect B) = true).
Proof.
  intros HwA HhA HwB HhB. unfold TrulyOverlap, overlapAmount, Placement.rectsOverlapPx.
  cbn [fst snd]. rewrite !overlap_positive, negb_true_iff, !orb_false_iff,
    !Qle_bool_false. split; intros; repeat split; lra.
Qed.

Lemma cmpYX_le (a b : Message) : cmpYX a b <= 0 <-> leYX a b.
Proof.
  unfold cmpYX, leYX.
  destruct (Qeq_bool (orElse (y a) 0 - orElse (y b) 0) 0) eqn:E.
  - apply Qeq_bool_iff in E. split; [intros H; right; split; lra|].
    intros [H|[_ H]]; lra.
  - apply Qeq_bool_neq in E. split; [intros H; left; lra|].
    intros [H|[H _]]; [lra|]. exfalso. apply E. lra.
Qed.

Lemma leYX_total (a b : Message) : leYX a b \/ leYX b a.
Proof.
  unfold leYX.
  destruct (Qlt_le_dec (orElse (y a) 0) (orElse (y b) 0)); [by left; left|].
  destruct (Qlt_le_dec (orElse (y b) 0) (orElse (y a) 0)); [by right; left|].
  destruct (Qlt_le_dec (orElse (x b) 0) (orElse (x a) 0)).
  - right. right. split; lra.
  - left. right. split; lra.
Qed.

Lemma leYX_trans (a b c : Message) : leYX a b -> leYX b c -> leYX a c.
Proof.
  unfold leYX. intros [H1|[H1 H1']] [H2|[H2 H2']].
  - left. lra.
  - left. lra.
  - left. lra.
  - right. split; lra.
Qed.

Lemma insertBy_sorted (a : Message) (l : list Message) :
  StronglySorted leYX l -> StronglySorted leYX (insertBy cmpYX a l).
Proof.
  induction 1 as [|b l Hs IH Hb]; simpl; [repeat constructor|].
  destruct (Qle_bool (cmpYX a b) 0) eqn:E.
  - apply Qle_bool_iff, cmpYX_le in E. constructor; [by constructor|].
    constructor; [done|]. eapply Forall_impl; [exact Hb|].
    intros c Hc. by eapply leYX_trans.
  - assert (Hba : leYX b a).
    { destruct (leYX_total a b) as [H|H]; [|done].
      apply cmpYX_le, Qle_bool_iff in H. congruence. }
    constructor; [done|].
    rewrite (insertBy_perm cmpYX a l). by constructor.
Qed.

(** X13.  The comparator of the resolver orders messages by [(y, x)], a null
    coordinate counting as 0; after the sort of a pass the messages are in
    that order, and they are the messages of before. *)
Theorem sortBy_cmpYX_sorted (l : list Message) :
  StronglySorted leYX (sortBy cmpYX l) /\ sortBy cmpYX l ≡ₚ l.
Proof.
  split; [|apply sortBy_perm].
  unfold sortBy. induction l as [|a l IH]; simpl; [constructor|].
  by apply insertBy_sorted.
Qed.

Lemma foldl_fixed {S I : Type} (f : S -> I -> S) (st : S) (js : list I) :
  (forall j, j ∈ js -> f st j = st) -> foldl f st js = st.
Proof.
  induction js as [|j js IH]; intros H; simpl; [done|].
  rewrite (H j) by apply list_elem_of_here.
  apply IH. intros k Hk. apply H. by apply list_elem_of_further.
Qed.

Lemma outerLoop_fixed {Fx : Type}
    (getRect : Message -> Rect.t) (ensureW ensureH : Q -> Q -> Fx -> Fx)
    (clampY : Q -> Q) (stageW : Q) (st : @RState Fx) :
  (forall i j A B, (i < j)%nat -> updated st !! i = Some A -> updated st !! j = Some B ->
                   adjustPair getRect clampY stageW A B = None) ->
  outerLoop getRect ensureW ensureH clampY stageW st = st.
Proof.
  intros H. unfold outerLoop. apply foldl_fixed. intros i _.
  unfold innerLoop. apply foldl_fixed. intros j Hj%elem_of_seq.
  unfold pairStep.
  destruct (updated st !! i) as [A|] eqn:HA; [|done].
  destruct (updated st !! j) as [B|] eqn:HB; [|done].
  by rewrite (H i j A B ltac:(lia) HA HB).
Qed.

(** X14.  On a layout of distinct messages in which no two placed messages
    overlap, the passes of the resolver move nothing and stop after the
    first one: the result is the sorted list, put through the final
    normalization only. *)
Theorem resolveOverlaps_no_overlap {Fx : Type}
    (getRect : Message -> Rect.t) (ensureW ensureH : Q -> Q -> Fx -> Fx)
    (clampY : Q -> Q) (stageW : Q) (messages : list Message) (s : Fx) :
  NoDup messages ->
  (forall A B, A ∈ messages -> B ∈ messages -> A <> B ->
               placed A = true -> placed B = true -> ~ TrulyOverlap getRect A B) ->
  resolveOverlaps getRect ensureW ensureH clampY stageW messages s
  = normalizeAll getRect ensureW ensureH clampY (sortBy cmpYX messages) s.
Proof.
  intros Hnd Hclear. unfold resolveOverlaps.
  assert (Hpass : resolvePass getRect ensureW ensureH clampY stageW messages s
                  = mkRState (sortBy cmpYX messages) false s).
  { unfold resolvePass. apply outerLoop_fixed. cbn [updated].
    intros i j A B Hij HA HB.
    assert (HnA : A ∈ messages)
      by (rewrite <- (sortBy_perm cmpYX messages); by eapply list_elem_of_lookup_2).
    assert (HnB : B ∈ messages)
      by (rewrite <- (sortBy_perm cmpYX messages); by eapply list_elem_of_lookup_2).
    assert (Hne : A <> B).
    { intros ->. assert (NoDup (sortBy cmpYX messages)) as Hnd'
        by (by rewrite (sortBy_perm cmpYX messages)).
      pose proof (NoDup_lookup _ _ _ _ Hnd' HA HB). lia. }
    unfold adjustPair. destruct (placed A) eqn:HpA; [|done].
    destruct (placed B) eqn:HpB; [|done]. cbn [andb].
    specialize (Hclear A B HnA HnB Hne HpA HpB). unfold TrulyOverlap in Hclear.
    destruct (overlapAmount getRect A B) as [ox oy]. cbn [fst snd] in Hclear.
    destruct (Qlt_bool 0 ox) eqn:Ex; [|done].
    destruct (Qlt_bool 0 oy) eqn:Ey; [|done].
    apply Qlt_bool_iff in Ex, Ey. tauto. }
  change MAX_RESOLVE_PASSES with (S 7). cbn [resolvePasses].
  rewrite Hpass. reflexivity.
Qed.

Lemma snap_edge (q : Q) : EDGE_PADDING <= q -> EDGE_PADDING <= snap q.
Proof.
  intros H. assert (snap EDGE_PADDING == EDGE_PADDING) as E by (by vm_compute).
  apply snap_mono in H. lra.
Qed.

(** X15.  After [resolveOverlaps], called with the [clampYNoBottom] of the
    component, every message that has both coordinates has them at or
    beyond the edge padding: nothing is left above or left of the canvas
    margin. *)
Theorem resolveOverlaps_on_canvas {Fx : Type}
    (getRect : Message -> Rect.t) (ensureW ensureH : Q -> Q -> Fx -> Fx)
    (stageW : Q) (messages : list Message) (s : Fx) :
  Forall OnCanvasMsg
    (fst (resolveOverlaps getRect ensureW ensureH clampYNoBottom stageW messages s)).
Proof.
  apply Forall_forall. intros m Hm. unfold resolveOverlaps in Hm.
  destruct (resolvePasses _ _ _ _ _ _ _ _) as [upd s1].
  unfold OnCanvasMsg. destruct (x m) as [mx|] eqn:Hx; [|done].
  destruct (y m) as [my|] eqn:Hy; [|done].
  assert (Hp : placed m = true) by (unfold placed; by rewrite Hx, Hy).
  destruct (normalizeAll_placed _ _ _ _ _ _ _ Hm Hp)
    as (m0 & ax & ay & _ & _ & _ & Hx' & Hy').
  rewrite Hx in Hx'. rewrite Hy in Hy'. simplify_eq. split.
  - apply snap_edge. qcases; lra.
  - apply clampYNoBottom_spec.
Qed.


(** X17.  A push-down keeps the x of [B] and moves it down: the new y is
    above [B.y + oy + PADDING - GRID / 2], which for a positive overlap is
    more than 18 pixels below the old y. *)
Theorem pushedDown_moves_down (B : Message) (oy : Q) :
  exists ny,
    y (pushedDown clampYNoBottom B oy) = Some ny
    /\ x (pushedDown clampYNoBottom B oy) = x B
    /\ orElse (y B) 0 + oy + PADDING - GRID / 2 < ny
    /\ (0 < oy -> orElse (y B) 0 + 18 < ny).
Proof.
  eexists. split; [reflexivity|]. split; [reflexivity|].
  unfold clampYNoBottom.
  destruct (snap_spec (Math.max EDGE_PADDING (orElse (y B) 0 + oy + PADDING))) as [Hlo _].
  assert (Hmax : orElse (y B) 0 + oy + PADDING
                 <= Math.max EDGE_PADDING (orElse (y B) 0 + oy + PADDING))
    by (qcases; lra).
  split; [qlin | intros; qlin].
Qed.

(** ** ChatCanvas.jsx: the stage *)

Lemma ensureWidth_spec (v : View) (xv w : Q) (prev : Stage.t) :
  Stage.width prev <= Stage.width (ensureWidthForRect v xv w prev)
  /\ xv + w + EDGE_PADDING <= Stage.width (ensureWidthForRect v xv w prev)
  /\ Stage.height (ensureWidthForRect v xv w prev) = Stage.height prev.
Proof.
  unfold ensureWidthForRect. cbv zeta.
  pose proof (Qle_ceiling (xv + w + EDGE_PADDING)) as Hx. unfold Math.ceil.
  destruct (Qlt_bool (Stage.width prev) _) eqn:E.
  - apply Qlt_bool_iff in E. cbn [Stage.width Stage.height].
    split; [qcases; lra|]. split; [qcases; lra | reflexivity].
  - apply Qlt_bool_false in E. split; [lra|]. split; [lra | reflexivity].
Qed.

Lemma ensureHeight_spec (v : View) (yv h : Q) (prev : Stage.t) :
  Stage.height prev <= Stage.height (ensureHeightForRect v yv h prev)
  /\ yv + h + EDGE_PADDING <= Stage.height (ensureHeightForRect v yv h prev)
  /\ Stage.width (ensureHeightForRect v yv h prev) = Stage.width prev.
Proof.
  unfold ensureHeightForRect. cbv zeta.
  pose proof (Qle_ceiling (yv + h + EDGE_PADDING)) as Hy. unfold Math.ceil.
  destruct (Qlt_bool (Stage.height prev) _) eqn:E.
  - apply Qlt_bool_iff in E. cbn [Stage.width Stage.height].
    split; [qcases; lra|]. split; [qcases; lra | reflexivity].
  - apply Qlt_bool_false in E. split; [lra|]. split; [lra | reflexivity].
Qed.

(** X18.  [ensureWidthForRect] and [ensureHeightForRect] never shrink the
    stage, touch one dimension only, and leave it large enough for the
    rectangle plus the edge padding. *)
Theorem ensure_covers (v : View) (xv yv w h : Q) (prev : Stage.t) :
  let sw := ensureWidthForRect v xv w prev in
  let sh := ensureHeightForRect v yv h prev in
  (Stage.width prev <= Stage.width sw
   /\ xv + w + EDGE_PADDING <= Stage.width sw
   /\ Stage.height sw = Stage.height prev)
  /\ (Stage.height prev <= Stage.height sh
      /\ yv + h + EDGE_PADDING <= Stage.height sh
      /\ Stage.width sh = Stage.width prev).
Proof. split; [apply ensureWidth_spec | apply ensureHeight_spec]. Qed.

Lemma updateStageSize_fold (v : View) (l : list Message) :
  forall a b : Q,
    let '(a', b') :=
      foldl (fun (acc : Q * Q) (m : Message) =>
               let '(maxX, maxY) := acc in
               match x m, y m with
               | Some mx, Some my =>
                   let r := getRectFor v m in
                   (Math.max maxX (mx + Rect.w r + GAP * 2),
                    Math.max maxY (my + Rect.h r + GAP * 2))
               | _, _ => acc
               end) (a, b) l in
    a <= a' /\ b <= b'
    /\ forall m mx my, m ∈ l -> x m = Some mx -> y m = Some my ->
         mx + Rect.w (getRectFor v m) + GAP * 2 <= a'
         /\ my + Rect.h (getRectFor v m) + GAP * 2 <= b'.
Proof.
  induction l as [|m0 l IH]; intros a b; simpl.
  - split; [lra|]. split; [lra|]. intros m mx my Hm. by apply elem_of_nil in Hm.
  - set (acc1 := match x m0, y m0 with
                 | Some mx, Some my =>
                     (Math.max a (mx + Rect.w (getRectFor v m0) + GAP * 2),
                      Math.max b (my + Rect.h (getRectFor v m0) + GAP * 2))
                 | _, _ => (a, b)
                 end).
    assert (Hacc : a <= fst acc1 /\ b <= snd acc1
                   /\ forall mx my, x m0 = Some mx -> y m0 = Some my ->
                        mx + Rect.w (getRectFor v m0) + GAP * 2 <= fst acc1
                        /\ my + Rect.h (getRectFor v m0) + GAP * 2 <= snd acc1).
    { unfold acc1. destruct (x m0) as [mx0|]; [destruct (y m0) as [my0|]|];
        cbn [fst snd]; (split; [qcases; lra|]); (split; [qcases; lra|]);
        intros mx my Hx Hy; simplify_eq. qcases; split; lra. }
    destruct acc1 as [a1 b1]. cbn [fst snd] in Hacc.
    destruct Hacc as (Ha & Hb & Hm0). specialize (IH a1 b1).
    destruct (foldl _ (a1, b1) l) as [a' b']. destruct IH as (Ha' & Hb' & Hl).
    split; [lra|]. split; [lra|].
    intros m mx my [->|Hm]%elem_of_cons Hx Hy.
    + destruct (Hm0 mx my Hx Hy). split; lra.
    + by apply Hl.
Qed.

(** X19.  [updateStageSize] yields a stage that is at least the viewport and
    holds every placed bubble with a margin of two gaps on the right and
    below. *)
Theorem updateStageSize_covers (v : View) (cur : list Message) :
  let s := updateStageSize v cur in
  viewportW v <= Stage.width s /\ viewportH v <= Stage.height s
  /\ forall m mx my, m ∈ cur -> x m = Some mx -> y m = Some my ->
       StageHolds s (GAP * 2) mx my
         (Rect.w (getRectFor v m)) (Rect.h (getRectFor v m)).
Proof.
  unfold updateStageSize. pose proof (updateStageSize_fold v cur (viewportW v) (viewportH v)) as H.
  destruct (foldl _ _ cur) as [a' b']. destruct H as (Ha & Hb & Hl).
  cbn [Stage.width Stage.height]. unfold Math.ceil.
  pose proof (Qle_ceiling (Math.max a' (viewportW v))) as Hx.
  pose proof (Qle_ceiling (Math.max b' (viewportH v))) as Hy.
  assert (a' <= Math.max a' (viewportW v)) by (qcases; lra).
  assert (b' <= Math.max b' (viewportH v)) by (qcases; lra).
  split; [lra|]. split; [lra|].
  intros m mx my Hm Hmx Hmy. destruct (Hl m mx my Hm Hmx Hmy).
  unfold StageHolds. cbn [Stage.width Stage.height]. split; lra.
Qed.

(** ** ChatCanvas.jsx: the placement pass *)

Lemma placeRoot_cases (v : View) (cur : list Message) (i : nat)
    (st : Placement.State) (m : Message) (size : Size.t) :
  Placement.next st !! i = Some m -> placed m = false ->
  bubbleSizes v !! id m = Some size ->
  (forall p, parentId m = Some p -> truthy (Some p) = true -> False) ->
  exists m0 size0 px py,
    Placement.next st !! i = Some m0 /\ placed m0 = false
    /\ bubbleSizes v !! id m0 = Some size0
    /\ (forall p, parentId m0 = Some p -> truthy (Some p) = true ->
          exists pm, Placement.findById cur p = Some pm /\ is_Some (x pm))
    /\ snapped px
    /\ Placement.next (Placement.placeRoot v st i m size)
       = <[i := withY (withX m0 px) (clampYNoBottom py)]> (Placement.next st)
    /\ Placement.changed (Placement.placeRoot v st i m size) = true
    /\ Placement.stage (Placement.placeRoot v st i m size)
       = ensureHeightForRect v (clampYNoBottom py) (Size.h size0)
           (ensureWidthForRect v px (Size.w size0) (Placement.stage st)).
Proof.
  intros Hi Hp Hs Hnp.
  assert (exists py, Placement.rootY v (Placement.next st) = clampYNoBottom py)
    as [py Hpy].
  { unfold Placement.rootY.
    destruct (Placement.lowestRoot v _); [by eexists | by exists EDGE_PADDING]. }
  exists m, size, (Placement.rootX v (Size.w size)), py.
  split; [done|]. split; [done|]. split; [done|].
  split; [intros p Hpp Ht; destruct (Hnp p Hpp Ht)|].
  split; [unfold Placement.rootX; by eexists|].
  unfold Placement.placeRoot. cbn. rewrite Hpy. done.
Qed.

(** What one iteration of the pass does: nothing, or it gives the unplaced,
    measured message at its index a snapped x and a clamped y, grows the
    stage for it and raises [changed]; a child only when its parent has an
    x in the committed list. *)
Lemma placeAt_cases (v : View) (cur : list Message) (i : nat)
    (st st' : Placement.State) :
  Placement.placeAt v cur i st = Some st' ->
  st' = st
  \/ exists m size px py,
       Placement.next st !! i = Some m /\ placed m = false
       /\ bubbleSizes v !! id m = Some size
       /\ (forall p, parentId m = Some p -> truthy (Some p) = true ->
             exists pm, Placement.findById cur p = Some pm /\ is_Some (x pm))
       /\ snapped px
       /\ Placement.next st'
          = <[i := withY (withX m px) (clampYNoBottom py)]> (Placement.next st)
       /\ Placement.changed st' = true
       /\ Placement.stage st'
          = ensureHeightForRect v (clampYNoBottom py) (Size.h size)
              (ensureWidthForRect v px (Size.w size) (Placement.stage st)).
Proof.
  unfold Placement.placeAt.
  destruct (Placement.next st !! i) as [m|] eqn:Hi; [|intros [= <-]; by left].
  destruct (placed m) eqn:Hp; [intros [= <-]; by left|].
  destruct (bubbleSizes v !! id m) as [size|] eqn:Hs; [|intros [= <-]; by left].
  pose proof (placeRoot_cases v cur i st m size Hi Hp Hs) as Hroot.
  rewrite Hi in Hroot.
  destruct (parentId m) as [p|] eqn:Hpar;
    [|intros [= <-]; right; apply Hroot; intros ? [=]].
  destruct (truthy (Some p)) eqn:Ht;
    [|intros [= <-]; right; apply Hroot; intros ? [= <-]; congruence].
  clear Hroot. unfold Placement.placeChild.
  destruct (Placement.getPlacedRectById v cur (Placement.next st) p) as [pr|];
    [|intros [= <-]; by left].
  destruct (Placement.findById cur p) as [pm|] eqn:Hpm; [|intros [= <-]; by left].
  destruct (x pm) as [pmx|] eqn:Hpx; [|intros [= <-]; by left].
  destruct (getRootIdOf cur p) as [rootId|]; cbn [mbind option_bind]; [|discriminate].
  assert (Hready : forall q, parentId m = Some q -> truthy (Some q) = true ->
            exists pm0, Placement.findById cur q = Some pm0 /\ is_Some (x pm0)).
  { intros q Hq _. rewrite Hpar in Hq. injection Hq as <-.
    exists pm. split; [done|]. rewrite Hpx. by eexists. }
  destruct (isThread m).
  - intros [= <-]. right.
    exists m, size, (fst (Placement.threadPos v cur st m p pr size)),
      (snd (Placement.threadPos v cur st m p pr size)).
    split; [done|]. split; [done|]. split; [done|]. split; [done|].
    split; [apply PlacementFacts.threadPos_x|]. done.
  - destruct (Placement.pinnedCenter v cur st rootId) as [c st1] eqn:Hpin.
    intros [= <-]. right.
    assert (Placement.next st1 = Placement.next st
            /\ Placement.stage st1 = Placement.stage st) as [En Es].
    { unfold Placement.pinnedCenter in Hpin.
      destruct (Placement.rootCenters st !! rootId); by simplify_eq. }
    exists m, size, (fst (Placement.mainPos v cur m c pr size)),
      (snd (Placement.mainPos v cur m c pr size)).
    split; [done|]. split; [done|]. split; [done|]. split; [done|].
    split; [apply PlacementFacts.mainPos_x|].
    unfold Placement.assign. cbn. rewrite En, Es. done.
Qed.

Lemma placeAll_invariant (v : View) (cur : list Message) (I : Placement.State -> Prop) :
  (forall j st st', I st -> Placement.placeAt v cur j st = Some st' -> I st') ->
  forall (js : list nat) st st',
    I st ->
    foldl (fun acc i => acc ≫= Placement.placeAt v cur i) (Some st) js = Some st' ->
    I st'.
Proof.
  intros Hstep. induction js as [|j js IH]; intros st st' HI; simpl.
  - by intros [= <-].
  - destruct (Placement.placeAt v cur j st) as [st1|] eqn:Hj.
    + apply IH. by eapply Hstep.
    + intros H. exfalso. clear -H.
      induction js as [|k js IHk]; simpl in H; [done | auto].
Qed.

(** X20.  The pass waits for what it needs.  A message without a measured
    size, and a child whose parent has no x in the committed list (or is
    not in it), come out of the pass exactly as they went in: a child is
    never placed in the pass that places its parent. *)
Theorem pass_waits (v : View) (cur : list Message) (centers0 : gmap string Q)
    (tails0 : gmap string string) (stg : Stage.t) (out : Placement.Outcome)
    (i : nat) (m : Message) :
  Placement.pass v cur centers0 tails0 stg = Some out ->
  cur !! i = Some m ->
  (bubbleSizes v !! id m = None
   \/ exists p, parentId m = Some p /\ truthy (Some p) = true
                /\ forall pm, Placement.findById cur p = Some pm -> x pm = None) ->
  Placement.messages out !! i = Some m.
Proof.
  intros Hpass Hi Hwait. unfold Placement.pass, Placement.placeAll in Hpass.
  apply fmap_Some in Hpass as (st & Hst & ->).
  cbn [Placement.finish Placement.messages].
  destruct (Placement.changed st); [|done].
  revert Hst.
  apply (placeAll_invariant v cur (fun s => Placement.next s !! i = Some m)); [|done].
  intros j s s' HI Hj. apply placeAt_cases in Hj as [->|Hj]; [done|].
  destruct Hj as (m0 & size & px & py & Hm0 & _ & Hsz & Hready & _ & -> & _).
  destruct (decide (j = i)) as [->|Hne]; [|by rewrite list_lookup_insert_ne].
  exfalso. rewrite HI in Hm0. injection Hm0 as <-.
  destruct Hwait as [Hns|(p & Hp & Ht & Hnone)]; [congruence|].
  destruct (Hready p Hp Ht) as (pm & Hpm & [q Hq]).
  rewrite (Hnone pm Hpm) in Hq. discriminate.
Qed.

(** X21.  A pass that reports no change has had no effect at all: the
    message list, the pinned centers, the main tails and the stage size are
    those it started with. *)
Theorem pass_no_commit (v : View) (cur : list Message) (centers0 : gmap string Q)
    (tails0 : gmap string string) (stg : Stage.t) (out : Placement.Outcome) :
  Placement.pass v cur centers0 tails0 stg = Some out ->
  Placement.committed out = false ->
  out = Placement.mkOutcome cur false centers0 tails0 stg.
Proof.
  intros Hpass Hc. unfold Placement.pass, Placement.placeAll in Hpass.
  apply fmap_Some in Hpass as (st & Hst & ->).
  cbn [Placement.finish Placement.committed] in Hc.
  set (st0 := Placement.initial cur centers0 tails0 stg) in *.
  assert (HI : Placement.changed st = true \/ st = st0).
  { revert Hst.
    apply (placeAll_invariant v cur
             (fun s => Placement.changed s = true \/ s = st0)); [|by right].
    intros j s s' HI Hj. apply placeAt_cases in Hj as [->|Hj]; [done|].
    destruct Hj as (? & ? & ? & ? & _ & _ & _ & _ & _ & _ & Hch & _). by left. }
  destruct HI as [HI| ->]; [congruence|]. reflexivity.
Qed.

Lemma clampYNoBottom_edge (q : Q) : EDGE_PADDING <= clampYNoBottom q.
Proof. apply clampYNoBottom_spec. Qed.

(** X22.  The pass grows the stage with what it places.  The stage never
    shrinks during a pass, and every message that the pass has placed
    has its top at or below the edge padding and lies, with the edge
    padding to spare on the right and below, inside the stage that the pass
    leaves behind. *)
Theorem pass_stage_covers (v : View) (cur : list Message) (centers0 : gmap string Q)
    (tails0 : gmap string string) (stg : Stage.t) (out : Placement.Outcome) :
  Placement.pass v cur centers0 tails0 stg = Some out ->
  StageGrows stg (Placement.stageSize out)
  /\ forall i m m',
       cur !! i = Some m -> Placement.messages out !! i = Some m' -> m' <> m ->
       exists size px py,
         bubbleSizes v !! id m = Some size
         /\ x m' = Some px /\ y m' = Some py /\ EDGE_PADDING <= py
         /\ StageHolds (Placement.stageSize out) EDGE_PADDING px py
              (Size.w size) (Size.h size).
Proof.
  intros Hpass. unfold Placement.pass, Placement.placeAll in Hpass.
  apply fmap_Some in Hpass as (st & Hst & ->).
  cbn [Placement.finish Placement.messages Placement.stageSize].
  set (I := fun s : Placement.State =>
              StageGrows stg (Placement.stage s)
              /\ forall i m m',
                   cur !! i = Some m -> Placement.next s !! i = Some m' ->
                   m' = m
                   \/ exists size px py,
                        bubbleSizes v !! id m = Some size
                        /\ m' = withY (withX m px) py /\ EDGE_PADDING <= py
                        /\ StageHolds (Placement.stage s) EDGE_PADDING px py
                             (Size.w size) (Size.h size)).
  assert (HI : I st).
  { revert Hst. apply (placeAll_invariant v cur I).
    - intros j s s' [Hg Hall] Hj. apply placeAt_cases in Hj as [->|Hj]; [by split|].
      destruct Hj as (m0 & size & px & py & Hm0 & Hp0 & Hsz & _ & _ & Hn & _ & Hs).
      destruct (ensureWidth_spec v px (Size.w size) (Placement.stage s))
        as (Hw1 & Hw2 & Hw3).
      destruct (ensureHeight_spec v (clampYNoBottom py) (Size.h size)
                  (ensureWidthForRect v px (Size.w size) (Placement.stage s)))
        as (Hh1 & Hh2 & Hh3).
      rewrite <- Hs in Hh1, Hh2, Hh3. rewrite Hw3 in Hh1. rewrite <- Hh3 in Hw1, Hw2.
      assert (Hgrow : StageGrows (Placement.stage s) (Placement.stage s')).
      { unfold StageGrows. split; lra. }
      split; [destruct Hg, Hgrow; split; lra|].
      intros i m m' Hi Hi'. rewrite Hn in Hi'.
      destruct (decide (j = i)) as [->|Hne].
      + assert (m0 = m) as ->.
        { destruct (Hall i m m0 Hi Hm0) as [->|(? & ? & ? & _ & -> & _)]; [done|].
          discriminate. }
        rewrite list_lookup_insert_eq in Hi' by (by eapply lookup_lt_Some).
        injection Hi' as <-. right. exists size, px, (clampYNoBottom py).
        split; [done|]. split; [done|]. split; [apply clampYNoBottom_edge|].
        unfold StageHolds. split; lra.
      + rewrite list_lookup_insert_ne in Hi' by done.
        destruct (Hall i m m' Hi Hi') as [->|(sz & qx & qy & ? & ? & ? & [Hx Hy])];
          [by left|].
        right. exists sz, qx, qy. split; [done|]. split; [done|]. split; [done|].
        destruct Hgrow. split; lra.
    - split; [split; cbn; lra|]. intros i m m' Hi Hi'. left. cbn in Hi'. congruence. }
  destruct HI as [Hg Hall]. split; [done|].
  intros i m m' Hi Hi' Hne.
  destruct (Placement.changed st); [|congruence].
  destruct (Hall i m m' Hi Hi') as [->|(sz & qx & qy & ? & -> & ? & ?)]; [done|].
  exists sz, qx, qy. done.
Qed.

(** *** Stacking below a parent *)

Lemma sweep_unfold (rects : list Rect.t) (c : Rect.t) :
  Placement.sweep rects c = foldl sweepStep (c, false) rects.
Proof. reflexivity. Qed.

Lemma overlap_above (c r : Rect.t) :
  Placement.rectsOverlapPx c r = true -> Rect.y c < landing r.
Proof.
  unfold Placement.rectsOverlapPx, landing. rewrite negb_true_iff, !orb_false_iff.
  intros (_ & Hb). apply Qle_bool_false in Hb.
  destruct (snap_spec (Rect.y r + Rect.h r + GAP)) as [Hlo _]. qlin.
Qed.

Lemma sweep_cases (rects : list Rect.t) :
  forall (c c' : Rect.t) (ch ch' : bool),
    foldl sweepStep (c, ch) rects = (c', ch') ->
    Rect.x c' = Rect.x c /\ Rect.w c' = Rect.w c /\ Rect.h c' = Rect.h c
    /\ ((ch' = ch /\ c' = c
         /\ forall r, r ∈ rects -> Placement.rectsOverlapPx c r = false)
        \/ (ch' = true /\ Rect.y c < Rect.y c'
            /\ exists r, r ∈ rects /\ Rect.y c' = landing r)).
Proof.
  induction rects as [|r rects IH]; intros c c' ch ch'; simpl.
  - intros [= <- <-]. repeat split. left. repeat split.
    intros r Hr. by apply elem_of_nil in Hr.
  - destruct (Placement.rectsOverlapPx c r) eqn:Hov.
    + intros H. apply IH in H as (Hx & Hw & Hh & Hcase). cbn in Hx, Hw, Hh.
      split; [done|]. split; [done|]. split; [done|]. right.
      pose proof (overlap_above c r Hov) as Hup.
      destruct Hcase as [(-> & -> & _)|(-> & Hy & r' & Hr' & Hl)].
      * split; [done|]. split; [exact Hup|]. exists r.
        split; [apply list_elem_of_here | reflexivity].
      * split; [done|]. cbn in Hy. split; [unfold landing in Hup; lra|].
        exists r'. split; [by apply list_elem_of_further | done].
    + intros H. apply IH in H as (Hx & Hw & Hh & Hcase).
      split; [done|]. split; [done|]. split; [done|].
      destruct Hcase as [(-> & -> & Hall)|(-> & Hy & r' & Hr' & Hl)].
      * left. repeat split. intros r0 [->|Hr0]%elem_of_cons; [done | by apply Hall].
      * right. split; [done|]. split; [done|].
        exists r'. split; [by apply list_elem_of_further | done].
Qed.

Lemma ahead_decreases (rects : list Rect.t) (y1 y2 : Q) (r : Rect.t) :
  y1 < y2 -> r ∈ rects -> y2 = landing r ->
  (ahead rects y2 < ahead rects y1)%nat.
Proof.
  intros Hy Hr Hl. unfold ahead.
  assert (Hle : forall l, (length (List.filter (fun r => Qlt_bool y2 (landing r)) l)
                           <= length (List.filter (fun r => Qlt_bool y1 (landing r)) l))%nat).
  { induction l as [|a l IH]; simpl; [lia|].
    destruct (Qlt_bool y2 (landing a)) eqn:E2.
    - apply Qlt_bool_iff in E2. assert (Qlt_bool y1 (landing a) = true) as ->
        by (apply Qlt_bool_iff; lra). simpl. lia.
    - destruct (Qlt_bool y1 (landing a)); simpl; lia. }
  induction rects as [|a rects IH]; [by apply elem_of_nil in Hr|].
  simpl. apply elem_of_cons in Hr as [<-|Hr].
  - assert (Qlt_bool y2 (landing r) = false) as ->
      by (apply Qlt_bool_false; rewrite Hl; lra).
    assert (Qlt_bool y1 (landing r) = true) as ->
      by (apply Qlt_bool_iff; rewrite <- Hl; lra).
    simpl. specialize (Hle rects). lia.
  - specialize (IH Hr).
    destruct (Qlt_bool y2 (landing a)) eqn:E2.
    + apply Qlt_bool_iff in E2. assert (Qlt_bool y1 (landing a) = true) as ->
        by (apply Qlt_bool_iff; lra). simpl. lia.
    + destruct (Qlt_bool y1 (landing a)); simpl; lia.
Qed.

Lemma stackLoop_settles (rects : list Rect.t) (guard : nat) :
  forall c, (ahead rects (Rect.y c) < guard)%nat ->
    forall r, r ∈ rects ->
      Placement.rectsOverlapPx (Placement.stackLoop guard rects c) r = false.
Proof.
  induction guard as [|g IH]; intros c Hlt; [lia|]. simpl.
  destruct (Placement.sweep rects c) as [c1 ch] eqn:Hs. rewrite sweep_unfold in Hs.
  apply sweep_cases in Hs as (_ & _ & _ & Hcase).
  destruct Hcase as [(-> & -> & Hall)|(-> & Hy & r' & Hr' & Hl)]; [done|].
  apply IH. pose proof (ahead_decreases rects _ _ r' Hy Hr' Hl). lia.
Qed.

Lemma stackLoop_y (rects : list Rect.t) (guard : nat) :
  forall c, Rect.y c <= Rect.y (Placement.stackLoop guard rects c)
            /\ (snapped (Rect.y c) ->
                snapped (Rect.y (Placement.stackLoop guard rects c)))
            /\ Rect.w (Placement.stackLoop guard rects c) = Rect.w c
            /\ Rect.h (Placement.stackLoop guard rects c) = Rect.h c.
Proof.
  induction guard as [|g IH]; intros c; simpl; [split; [lra | done]|].
  destruct (Placement.sweep rects c) as [c1 ch] eqn:Hs. rewrite sweep_unfold in Hs.
  apply sweep_cases in Hs as (_ & Hw & Hh & Hcase).
  destruct Hcase as [(-> & -> & Hall)|(-> & Hy & r' & Hr' & Hl)];
    [split; [lra | done]|].
  destruct (IH c1) as (Hle & Hsn & Hw1 & Hh1).
  split; [lra|]. split; [|split; congruence].
  intros _. apply Hsn. rewrite Hl. by eexists.
Qed.

Lemma placedRects_elem (v : View) (nxt : list Message) (ex : string) (m : Message)
    (mx my : Q) :
  m ∈ nxt -> id m <> ex -> x m = Some mx -> y m = Some my ->
  Rect.mk mx my (Size.w (Placement.sizeOrDefault v (id m)))
                (Size.h (Placement.sizeOrDefault v (id m)))
    ∈ Placement.buildPlacedRectsExcluding v nxt ex.
Proof.
  intros Hm Hne Hx Hy. unfold Placement.buildPlacedRectsExcluding.
  apply list_elem_of_omap. exists m. split; [done|].
  destruct (String.eqb (id m) ex) eqn:E; [by apply String.eqb_eq in E|].
  by rewrite Hx, Hy.
Qed.

Lemma placedRects_length (v : View) (nxt : list Message) (ex : string) :
  (length (Placement.buildPlacedRectsExcluding v nxt ex) <= length nxt)%nat.
Proof.
  unfold Placement.buildPlacedRectsExcluding.
  induction nxt as [|m nxt IH]; [done|]. cbn [omap list_omap].
  destruct (if String.eqb (id m) ex then None else _); simpl in *; lia.
Qed.

(** X23.  [stackBelowAtX] keeps the snapped target x and only moves down
    from the row below the parent, staying on the grid.  With fewer than
    200 messages in the working copy its loop settles, and the position it
    returns overlaps no placed message other than the excluded one. *)
Theorem stackBelowAtX_clear (v : View) (nxt : list Message) (targetLeftX : Q)
    (pr : Rect.t) (size : Size.t) (excludeId : string) :
  (length nxt < 200)%nat ->
  let pos := Placement.stackBelowAtX v nxt targetLeftX pr size excludeId in
  fst pos = snap targetLeftX
  /\ snap (Rect.y pr + Rect.h pr + GAP) <= snd pos
  /\ snapped (snd pos)
  /\ forall m mx my,
       m ∈ nxt -> id m <> excludeId -> x m = Some mx -> y m = Some my ->
       Placement.rectsOverlapPx
         (Rect.mk (fst pos) (snd pos) (Size.w size) (Size.h size))
         (Rect.mk mx my (Size.w (Placement.sizeOrDefault v (id m)))
                        (Size.h (Placement.sizeOrDefault v (id m)))) = false.
Proof.
  intros Hlen pos. unfold pos, Placement.stackBelowAtX. cbv beta zeta. cbn [fst snd].
  set (rects := Placement.buildPlacedRectsExcluding v nxt excludeId).
  set (c0 := Rect.mk (snap targetLeftX) (snap (Rect.y pr + Rect.h pr + GAP))
                     (Size.w size) (Size.h size)).
  destruct (stackLoop_y rects 200 c0) as (Hy & Hsn & Hw & Hh).
  pose proof (PlacementFacts.stackLoop_x 200 rects c0) as Hx.
  split; [exact Hx|]. split; [exact Hy|]. split; [apply Hsn; by eexists|].
  intros m mx my Hm Hne Hmx Hmy.
  assert (Hclear : Placement.rectsOverlapPx (Placement.stackLoop 200 rects c0)
            (Rect.mk mx my (Size.w (Placement.sizeOrDefault v (id m)))
               (Size.h (Placement.sizeOrDefault v (id m)))) = false).
  { apply stackLoop_settles; [|by apply placedRects_elem].
    pose proof (placedRects_length v nxt excludeId).
    unfold ahead.
    pose proof (List.filter_length_le
                  (fun r => Qlt_bool (Rect.y c0) (landing r)) rects) as Hf.
    fold rects in H. lia. }
  destruct (Placement.stackLoop 200 rects c0) as [sx sy sw0 sh0].
  cbn in Hx, Hw, Hh |- *. by subst.
Qed.

(** ** ChatCanvas.jsx: dropping a bubble *)

Lemma DroppedAt_grows (v : View) (d : string) (s1 s2 : Stage.t) (m m' : Message) :
  StageGrows s1 s2 -> DroppedAt v d s1 m m' -> DroppedAt v d s2 m m'.
Proof.
  intros [Hw Hh]. unfold DroppedAt. destruct (String.eqb (id m) d); [|done].
  intros (nx & ny & -> & ? & ? & ? & ? & ? & ? & [Hx Hy]).
  exists nx, ny. repeat (split; [done|]). unfold StageHolds. split; lra.
Qed.

Lemma dropOne_spec (v : View) (d : string) (m : Message) (s : Stage.t) :
  String.eqb (id m) d = true ->
  StageGrows s (dropOne v m s).2 /\ DroppedAt v d (dropOne v m s).2 m (dropOne v m s).1.
Proof.
  intros Hd. unfold dropOne. cbv zeta. cbn [fst snd].
  set (size := Placement.sizeOrDefault v (id m)).
  set (nx := snap (Math.max (orElse (x m) 0) EDGE_PADDING)).
  set (ny := clampYNoBottom (orElse (y m) 0)).
  set (s1 := ensureWidthForRect v nx (Size.w size) s).
  destruct (ensureWidth_spec v nx (Size.w size) s) as (Hw1 & Hw2 & Hw3).
  destruct (ensureHeight_spec v ny (Size.h size) s1) as (Hh1 & Hh2 & Hh3).
  fold s1 in Hw1, Hw2, Hw3.
  split.
  { unfold StageGrows. rewrite Hh3. rewrite <- Hw3. split; [exact Hw1 | exact Hh1]. }
  unfold DroppedAt. rewrite Hd. exists nx, ny. split; [reflexivity|].
  split; [apply snap_onGrid|]. split; [apply clampYNoBottom_spec|].
  split; [apply snap_edge; qcases; lra|]. split; [apply clampYNoBottom_edge|].
  split; [|split].
  - intros Hx. unfold nx.
    rewrite (snap_comp (Math.max (orElse (x m) 0) EDGE_PADDING) (orElse (x m) 0))
      by (qcases; lra).
    destruct (snap_spec (orElse (x m) 0)) as [Hlo Hhi].
    apply Qabs_Qle_condition. split; qlin.
  - intros Hy. unfold ny, clampYNoBottom.
    rewrite (snap_comp (Math.max EDGE_PADDING (orElse (y m) 0)) (orElse (y m) 0))
      by (qcases; lra).
    destruct (snap_spec (orElse (y m) 0)) as [Hlo Hhi].
    apply Qabs_Qle_condition. split; qlin.
  - unfold StageHolds. rewrite Hh3. split; [exact Hw2 | exact Hh2].
Qed.

(** X24.  The drop at the end of a drag.  The stage does not shrink; every
    message other than the dropped one is handed back as it is; the dropped
    one lands on a grid point at or beyond the edge padding, within half a
    grid unit of where it was released if that was beyond the edge padding,
    keeps all its other fields, and lies inside the stage that results with
    the edge padding to spare. *)
Theorem dropMessage_lands (v : View) (justDroppedId : string) (prev : list Message)
    (s : Stage.t) :
  StageGrows s (dropMessage v justDroppedId prev s).2
  /\ Forall2 (DroppedAt v justDroppedId (dropMessage v justDroppedId prev s).2)
             prev (dropMessage v justDroppedId prev s).1.
Proof.
  revert s. induction prev as [|m rest IH]; intros s; cbn [dropMessage].
  - cbn [fst snd]. split; [unfold StageGrows; split; lra | constructor].
  - destruct (String.eqb (id m) justDroppedId) eqn:Hd.
    + destruct (dropOne_spec v justDroppedId m s Hd) as [Hg Hdrop].
      destruct (dropOne v m s) as [m' s1]. cbn [fst snd] in Hg, Hdrop.
      specialize (IH s1). destruct (dropMessage v justDroppedId rest s1) as [r s2].
      cbn [fst snd] in IH |- *. destruct IH as [Hg2 Hall].
      split; [destruct Hg, Hg2; unfold StageGrows; split; lra|].
      constructor; [by eapply DroppedAt_grows | done].
    + specialize (IH s). destruct (dropMessage v justDroppedId rest s) as [r s2].
      cbn [fst snd] in IH |- *. destruct IH as [Hg2 Hall].
      split; [done|]. constructor; [|done]. unfold DroppedAt. by rewrite Hd.
Qed.

(** ** utils/thread.js: the main tail of a root *)

Lemma acyclic_grounded (msgs : list Message) (m : Message) :
  Acyclic msgs -> Grounded (idToMsg msgs) (Some m).
Proof.
  intros Hac. destruct (truthy (parentId m)) eqn:Ht; [|by apply grounded_root].
  destruct (parentId m) as [p|] eqn:Hp; [|done].
  by apply (grounded_step _ m p).
Qed.

Lemma climb_member (msgs : list Message) (m : Message) :
  Acyclic msgs -> m ∈ msgs ->
  exists e, climb (idToMsg msgs) (length msgs) (Some m) = Some e.
Proof.
  intros Hac Hm.
  apply (climb_bound msgs (length msgs) [] m);
    [by apply acyclic_grounded | constructor | | done | simpl; lia].
  intros u Hu. by apply elem_of_nil in Hu.
Qed.

Lemma filterOpt_spec {A : Type} (f : A -> option bool) (l : list A) :
  (forall a, a ∈ l -> is_Some (f a)) ->
  exists r, filterOpt f l = Some r /\ forall a, a ∈ r <-> a ∈ l /\ f a = Some true.
Proof.
  induction l as [|a l IH]; intros Hall; simpl.
  - exists []. split; [done|]. intros a. split; [by intros ?%elem_of_nil|].
    by intros [?%elem_of_nil _].
  - destruct (Hall a) as [b Hb]; [apply list_elem_of_here|]. rewrite Hb.
    destruct IH as (r & -> & Hr).
    { intros a' Ha'. apply Hall. by apply list_elem_of_further. }
    eexists. split; [reflexivity|]. intros a'. destruct b.
    + rewrite !elem_of_cons, Hr. split.
      * intros [->|[? ?]]; [by split; [left|] | by split; [right|]].
      * intros [[->|?] ?]; [by left | by right].
    + rewrite elem_of_cons, Hr. split.
      * intros [? ?]. by split; [right|].
      * intros [[->|?] ?]; [congruence | done].
Qed.

Lemma belongsToRoot_true (msgs : list Message) (rootId : string) (m : Message) :
  belongsToRoot (idToMsg msgs) (length msgs) rootId m = Some true <->
  exists e, climb (idToMsg msgs) (length msgs) (Some m) = Some (Some e)
            /\ id e = rootId.
Proof.
  unfold belongsToRoot.
  destruct (climb (idToMsg msgs) (length msgs) (Some m)) as [[c|]|]; split.
  - intros [= H]. apply String.eqb_eq in H. by exists c.
  - intros (e & [= <-] & He). f_equal. by apply String.eqb_eq.
  - discriminate.
  - by intros (e & ? & _).
  - discriminate.
  - by intros (e & ? & _).
Qed.

Lemma foldl_laterOf (time : string -> Q) (rest : list Message) :
  forall a,
    foldl (laterOf time) a rest ∈ a :: rest
    /\ forall m, m ∈ a :: rest ->
         time (timestamp m) <= time (timestamp (foldl (laterOf time) a rest)).
Proof.
  induction rest as [|b rest IH]; intros a; simpl.
  - split; [apply list_elem_of_here|].
    intros m ->%list_elem_of_singleton. lra.
  - destruct (IH (laterOf time a b)) as [Hin Hmax]. split.
    + apply elem_of_cons in Hin as [Hin|Hin]; [|by do 2 apply list_elem_of_further].
      rewrite Hin. unfold laterOf. destruct (Qlt_bool _ _);
        [apply list_elem_of_here | apply list_elem_of_further, list_elem_of_here].
    + assert (Hab : time (timestamp a) <= time (timestamp (laterOf time a b))
                    /\ time (timestamp b) <= time (timestamp (laterOf time a b))).
      { unfold laterOf. destruct (Qlt_bool _ _) eqn:E.
        - apply Qlt_bool_iff in E. split; lra.
        - apply Qlt_bool_false in E. split; lra. }
      pose proof (Hmax _ (list_elem_of_here _ _)) as H0.
      intros m [->|[->|Hm]%elem_of_cons]%elem_of_cons.
      * lra.
      * lra.
      * apply Hmax. by apply list_elem_of_further.
Qed.

(** X25.  On a list whose parent pointers are acyclic, [getTailIdForRoot]
    returns.  If the root has no main-chain message (a message that is not
    a thread message and whose parent chain ends at the root) it returns
    the root id itself; otherwise it returns the id of a main-chain message
    of the root than which no main-chain message of the root is later. *)
Theorem getTailIdForRoot_latest (time : string -> Q) (msgs : list Message)
    (rootId : string) :
  Acyclic msgs ->
  exists t, getTailIdForRoot time msgs rootId = Some t
    /\ (((forall m, ~ MainOf msgs rootId m) /\ t = rootId)
        \/ exists m, MainOf msgs rootId m /\ id m = t
             /\ forall m', MainOf msgs rootId m' ->
                  time (timestamp m') <= time (timestamp m)).
Proof.
  intros Hac. unfold getTailIdForRoot. cbv zeta.
  destruct (filterOpt_spec (belongsToRoot (idToMsg msgs) (length msgs) rootId) msgs)
    as (inRoot & -> & HinRoot).
  { intros a Ha. destruct (climb_member msgs a Hac Ha) as [e He].
    unfold belongsToRoot. rewrite He. destruct e; eauto. }
  cbn [mbind option_bind].
  assert (Hmain : forall m, m ∈ List.filter (fun m => negb (isThread m)) inRoot
                            <-> MainOf msgs rootId m).
  { intros m. rewrite list_elem_of_In, filter_In, <- list_elem_of_In, HinRoot.
    rewrite negb_true_iff, belongsToRoot_true. unfold MainOf. split.
    - intros [[Hm (e & He & Hid)] Hth]. split; [done|]. split; [done|].
      exists e. split; [by apply (climb_chain_end _ (length msgs)) | done].
    - intros (Hm & Hth & e & He & Hid). split; [|done]. split; [done|].
      destruct (climb_member msgs m Hac Hm) as [e' He'].
      pose proof (climb_chain_end _ _ _ _ He') as Hc.
      rewrite (chain_end_unique _ _ _ _ Hc He) in He'. by exists e. }
  assert (Hnone : List.filter (fun m => negb (isThread m)) inRoot = [] ->
                  forall m, ~ MainOf msgs rootId m).
  { intros E m Hm. apply Hmain in Hm. rewrite E in Hm. by apply elem_of_nil in Hm. }
  destruct inRoot as [|a0 inRoot'].
  { exists rootId. split; [done|]. left. split; [by apply Hnone | done]. }
  destruct (List.filter (fun m => negb (isThread m)) (a0 :: inRoot'))
    as [|a rest] eqn:E.
  { exists rootId. split; [done|]. left. split; [by apply Hnone | done]. }
  eexists. split; [reflexivity|]. right.
  destruct (foldl_laterOf time rest a) as [Hin Hmax].
  exists (foldl (laterOf time) a rest). split; [by apply Hmain|]. split; [done|].
  intros m' Hm'. apply Hmax. by apply Hmain.
Qed.

(** ** utils/llm.js: the ancestry of a bubble *)

Lemma ancestryLoop_path (M : gmap string Message) (fuel : nat) :
  forall cur chain out,
    ancestryLoop M fuel cur chain = Some out ->
    exists path, out = chain ++ path /\ UpPath M cur path.
Proof.
  induction fuel as [|fuel IH]; intros [m|] chain out; simpl.
  - destruct (truthy (parentId m)) eqn:Ht; [discriminate|].
    intros [= <-]. exists [m]. split; [done | by constructor].
  - intros [= <-]. exists []. split; [by rewrite app_nil_r | constructor].
  - destruct (truthy (parentId m)) eqn:Ht.
    + destruct (parentId m) as [p|] eqn:Hp; [|done].
      intros H. apply IH in H as (path & -> & Hpath).
      exists (m :: path). split; [by rewrite <- app_assoc|].
      by apply (up_step _ m p).
    + intros [= <-]. exists [m]. split; [done | by constructor].
  - intros [= <-]. exists []. split; [by rewrite app_nil_r | constructor].
Qed.

Lemma ancestryLoop_returns (M : gmap string Message) (fuel : nat) :
  forall cur chain e,
    climb M fuel cur = Some e -> is_Some (ancestryLoop M fuel cur chain).
Proof.
  induction fuel as [|fuel IH]; intros [m|] chain e; simpl; try by eauto.
  - destruct (parentId m) as [p|] eqn:Hp.
    + destruct (truthy (Some p)); [discriminate | eauto].
    + assert (truthy None = false) as -> by done. eauto.
  - destruct (parentId m) as [p|] eqn:Hp.
    + destruct (truthy (Some p)); [apply IH | eauto].
    + assert (truthy None = false) as -> by done. eauto.
Qed.

Lemma UpPath_shape (M : gmap string Message) (cur : option Message)
    (path : list Message) :
  UpPath M cur path ->
  head path = cur
  /\ (forall i a b, path !! i = Some a -> path !! S i = Some b -> parentOf M a b)
  /\ (forall r, last path = Some r -> ~ exists r', parentOf M r r').
Proof.
  induction 1 as [| m Hroot | m p path Hp Ht Hpath (Hhead & Hlink & Hlast)].
  - split; [done|]. split; [by intros [|i] a b|]. by intros r.
  - split; [done|]. split; [by intros [|i] a b|].
    intros r [= <-] (r' & q & Hq & Htq & _). rewrite Hq, Htq in Hroot. discriminate.
  - split; [done|]. split.
    + intros [|i] a b; simpl.
      * intros [= <-] Hb. exists p. split; [done|]. split; [done|].
        destruct path as [|c path']; [done|]. simpl in Hb, Hhead. congruence.
      * apply Hlink.
    + intros r Hr. destruct path as [|c path'].
      * injection Hr as <-. intros (r' & q & Hq & _ & Hr').
        simpl in Hhead. rewrite Hp in Hq. injection Hq as <-. congruence.
      * apply Hlast. by rewrite last_cons_cons in Hr.
Qed.

(** X26.  On a list whose parent pointers are acyclic, [buildAncestryChain]
    returns.  The chain ends with the message of the target id and is empty
    when the id has no message; each message of the chain is the parent, by
    lookup of the parent id, of the one after it; and the first message has
    no parent to look up. *)
Theorem buildAncestryChain_path (allMessages : list Message) (targetId : string) :
  Acyclic allMessages ->
  exists chain, buildAncestryChain allMessages targetId = Some chain
    /\ last chain = idToMsg allMessages !! targetId
    /\ (forall i a b, chain !! i = Some a -> chain !! S i = Some b ->
          parentOf (idToMsg allMessages) b a)
    /\ (forall r, head chain = Some r ->
          ~ exists r', parentOf (idToMsg allMessages) r r').
Proof.
  intros Hac. unfold buildAncestryChain. cbv zeta.
  set (M := idToMsg allMessages).
  assert (exists e, climb M (length allMessages) (M !! targetId) = Some e) as [e He].
  { destruct (M !! targetId) as [m|] eqn:Hm.
    - apply climb_member; [done|]. by apply (idToMsg_lookup_Some _ targetId).
    - destruct allMessages; simpl; eauto. }
  destruct (ancestryLoop_returns M _ _ [] e He) as [out Hout]. rewrite Hout.
  apply ancestryLoop_path in Hout as (path & -> & Hpath). simpl.
  destruct (UpPath_shape M _ _ Hpath) as (Hhead & Hlink & Hlast).
  exists (reverse path). split; [done|].
  split; [by rewrite last_reverse|]. split.
  - intros i a b Ha Hb.
    pose proof (lookup_lt_Some _ _ _ Hb) as Hlen. rewrite length_reverse in Hlen.
    rewrite reverse_lookup in Ha by lia. rewrite reverse_lookup in Hb by lia.
    apply (Hlink (length path - S (S i))%nat); [done|].
    by replace (S (length path - S (S i))) with (length path - S i)%nat by lia.
  - intros r Hr. apply Hlast. by rewrite <- head_reverse.
Qed.

(** ** utils/persistence.js: thread ids of loaded messages *)

Lemma deriveThreadId_member (msgs : list Message) (m : Message) :
  Acyclic msgs -> m ∈ msgs -> threadId m = None ->
  exists e, ChainEnd (idToMsg msgs) (Some m) e
            /\ deriveThreadId msgs m
               = Some (match e with Some c => id c | None => id m end).
Proof.
  intros Hac Hm Hth. destruct (climb_member msgs m Hac Hm) as [e He].
  exists e. split; [by apply (climb_chain_end _ (length msgs))|].
  unfold deriveThreadId. rewrite Hth, He.
  destruct msgs; [by apply elem_of_nil in Hm|]. by destruct e.
Qed.

Lemma backfillFrom_spec (msgs : list Message) (l : list Message) :
  Acyclic msgs -> (forall m, m ∈ l -> m ∈ msgs) ->
  exists out, backfillFrom msgs l = Some out /\ Forall2 (Backfilled msgs) l out.
Proof.
  intros Hac. induction l as [|m rest IH]; intros Hsub; simpl.
  - exists []. split; [done | constructor].
  - destruct IH as (r & -> & Hr).
    { intros m' Hm'. apply Hsub. by apply list_elem_of_further. }
    destruct (threadId m) as [t|] eqn:Hth.
    + exists (m :: r). split; [done|]. constructor; [|done].
      unfold Backfilled. by rewrite Hth.
    + destruct (deriveThreadId_member msgs m Hac) as (e & He & ->);
        [apply Hsub, list_elem_of_here | done |].
      eexists. split; [reflexivity|]. constructor; [|done].
      unfold Backfilled. rewrite Hth. by exists e.
Qed.

(** X27.  On a list whose parent pointers are acyclic, the backfill of
    [loadState] returns a list of the same length in which every message
    has a thread id.  A message that had one is handed back as it is; one
    that had none gets the id of the message at the end of its parent
    chain, or its own id when the chain breaks, with all other fields
    kept. *)
Theorem backfill_threadIds (messages : list Message) :
  Acyclic messages ->
  exists out, backfillThreadIds messages = Some out
    /\ Forall2 (Backfilled messages) messages out
    /\ Forall (fun m' => is_Some (threadId m')) out.
Proof.
  intros Hac. destruct (backfillFrom_spec messages messages Hac) as (out & Hout & Hall);
    [done|].
  exists out. split; [done|]. split; [done|].
  clear Hout. induction Hall as [|m m' l l' Hb _ IH]; constructor; [|done].
  unfold Backfilled in Hb. destruct (threadId m) as [t|] eqn:Hth.
  - subst. rewrite Hth. by eexists.
  - destruct Hb as (e & _ & ->). by eexists.
Qed.

(** X28.  [deriveThreadId] of persistence.js and [getRootIdOf] of thread.js
    agree: for a message without a thread id that is the map's entry for
    its own id, both give the same answer, and neither returns when the
    other does not. *)
Theorem deriveThreadId_getRootIdOf (msgs : list Message) (m : Message) :
  idToMsg msgs !! id m = Some m -> threadId m = None ->
  deriveThreadId msgs m = getRootIdOf msgs (id m).
Proof.
  intros Hm Hth. unfold deriveThreadId, getRootIdOf, getRootIdOfFuel. cbv zeta.
  rewrite Hm, Hth. destruct msgs as [|m0 msgs]; [by apply idToMsg_lookup_Some in Hm as [?%elem_of_nil _]|].
  by destruct (climb _ _ (Some m)) as [[c|]|].
Qed.

(** * Instances of the further properties *)

(** A slot that is free against two rectangles and against one of them. *)
Lemma isFreeRect_subset_witness :
  isFreeRect [Cell.mk None 50 50 5 5] 10 10 3 3 = true /\ (leftEdgeCol <= 10)%Z.
Proof.
  apply (isFreeRect_subset [Cell.mk None 50 50 5 5]
           [Cell.mk None 80 80 5 5; Cell.mk None 50 50 5 5] 10 10 3 3).
  - intros r Hr. by apply list_elem_of_further.
  - vm_compute. reflexivity.
Defined.

(** The occupancy of one placed bubble, 300 x 100 at (200, 200), and a
    slot 300 pixels to its right. *)
Lemma free_slot_clearance_witness :
  let r := getRectFor exView exBubble in
  fromCol 40 + 100 + (PADDING + GRID) <= Rect.x r
  \/ Rect.x r + Rect.w r + (PADDING + GRID) <= fromCol 40
  \/ fromRow 10 + 100 + (PADDING + GRID) <= Rect.y r
  \/ Rect.y r + Rect.h r + (PADDING + GRID) <= fromRow 10.
Proof.
  apply (free_slot_clearance (getRectFor exView) [exBubble] [] 40 10 100 100 exBubble).
  - vm_compute. reflexivity.
  - apply list_elem_of_here.
  - reflexivity.
  - apply not_elem_of_nil.
  - by vm_compute.
Defined.

Lemma findSideSlotOnRow_sound_witness :
  let pr := Rect.mk 360 80 300 105 in
  let res := Pos.mk 780 80 SideRight in
  (exists col, isFreeRect [] col (toRow (Rect.y pr)) (spanOf 300) (spanOf 100) = true
               /\ Pos.x res = fromCol col)
  /\ Pos.y res = fromRow (toRow (Rect.y pr))
  /\ Rect.y pr - GRID < Pos.y res /\ Pos.y res <= Rect.y pr
  /\ EDGE_PADDING <= Pos.x res
  /\ ((Pos.side res = SideRight
       /\ Rect.x pr + Rect.w pr + 5 * GRID < Pos.x res)
      \/ (Pos.side res = SideLeft
          /\ Pos.x res + 300 + PADDING + 6 * GRID <= Rect.x pr)).
Proof.
  apply (findSideSlotOnRow_sound [] (Rect.mk 360 80 300 105) 300 100 None
           (Pos.mk 780 80 SideRight)).
  vm_compute. reflexivity.
Defined.

(** A row that is blocked from end to end. *)
Lemma findSideSlotOnRow_exhausted_witness :
  let occ := [Cell.mk None (-1000) 0 3000 10] in
  let pr := Rect.mk 400 100 300 100 in
  isFreeRect occ (toCol (Rect.x pr + Rect.w pr) + sideGapCells + 7)
    (toRow (Rect.y pr)) (spanOf 300) (spanOf 100) = false
  /\ isFreeRect occ (toCol (Rect.x pr) - sideGapCells - spanOf 300 - 7)
       (toRow (Rect.y pr)) (spanOf 300) (spanOf 100) = false.
Proof.
  apply (findSideSlotOnRow_exhausted [Cell.mk None (-1000) 0 3000 10]
           (Rect.mk 400 100 300 100) 300 100 None 7).
  - vm_compute. reflexivity.
  - lia.
Defined.

Lemma overlap_tests_agree_witness :
  TrulyOverlap (getRectFor exView) exTall exInside
  <-> Placement.rectsOverlapPx (getRectFor exView exTall)
        (getRectFor exView exInside) = true.
Proof.
  apply (overlap_tests_agree (getRectFor exView) exTall exInside); by vm_compute.
Defined.

(** Two placed bubbles that are clear of each other. *)
Lemma resolveOverlaps_no_overlap_witness :
  resolveOverlaps (getRectFor exView) (ensureWidthForRect exView)
    (ensureHeightForRect exView) clampYNoBottom 1000 [exRoot1Placed; exBubble] exStage
  = normalizeAll (getRectFor exView) (ensureWidthForRect exView)
      (ensureHeightForRect exView) clampYNoBottom
      (sortBy cmpYX [exRoot1Placed; exBubble]) exStage.
Proof.
  apply (resolveOverlaps_no_overlap (getRectFor exView) (ensureWidthForRect exView)
           (ensureHeightForRect exView) clampYNoBottom 1000
           [exRoot1Placed; exBubble] exStage).
  - apply NoDup_cons. split; [|apply NoDup_singleton].
    intros H. apply list_elem_of_singleton in H. discriminate H.
  - intros A B HA HB Hne _ _ [_ H].
    apply elem_of_cons in HA as [->|HA]; [|apply list_elem_of_singleton in HA as ->];
      (apply elem_of_cons in HB as [->|HB]; [|apply list_elem_of_singleton in HB as ->]);
      try done; vm_compute in H; discriminate H.
Defined.

(** A message whose bubble has not been measured. *)
Lemma pass_waits_witness :
  Placement.messages
    (Placement.mkOutcome [exMsg "zz" None false None None] false ∅ ∅ exStage)
    !! 0%nat
  = Some (exMsg "zz" None false None None).
Proof.
  apply (pass_waits exView [exMsg "zz" None false None None] ∅ ∅ exStage
           (Placement.mkOutcome [exMsg "zz" None false None None] false ∅ ∅ exStage)
           0 (exMsg "zz" None false None None)).
  - vm_compute. reflexivity.
  - reflexivity.
  - left. vm_compute. reflexivity.
Defined.

Lemma pass_no_commit_witness :
  Placement.mkOutcome [exRoot1Placed] false ∅ ∅ exStage
  = Placement.mkOutcome [exRoot1Placed] false ∅ ∅ exStage.
Proof.
  apply (pass_no_commit exView [exRoot1Placed] ∅ ∅ exStage
           (Placement.mkOutcome [exRoot1Placed] false ∅ ∅ exStage)).
  - vm_compute. reflexivity.
  - reflexivity.
Defined.

(** The pass that places the second root. *)
Lemma pass_stage_covers_witness :
  let out := Placement.mkOutcome
               [exRoot1Placed; exMsg "r2" None false (Some 400) (Some 240)]
               true (<["r2" := 1000 # 2]> ∅) ∅ (Stage.mk 1000 800) in
  StageGrows exStage (Placement.stageSize out)
  /\ forall i m m',
       [exRoot1Placed; exRoot2] !! i = Some m ->
       Placement.messages out !! i = Some m' -> m' <> m ->
       exists size px py,
         bubbleSizes exView !! id m = Some size
         /\ x m' = Some px /\ y m' = Some py /\ EDGE_PADDING <= py
         /\ StageHolds (Placement.stageSize out) EDGE_PADDING px py
              (Size.w size) (Size.h size).
Proof.
  apply (pass_stage_covers exView [exRoot1Placed; exRoot2] ∅ ∅ exStage).
  vm_compute. reflexivity.
Defined.

(** A reply stacked below the first root while another bubble is in the way. *)
Lemma stackBelowAtX_clear_witness :
  let nxt := [exRoot1Placed; exBubble] in
  let pr := Rect.mk 360 80 300 105 in
  let size := Size.mk 310 100 in
  let pos := Placement.stackBelowAtX exView nxt 360 pr size "c" in
  fst pos = snap 360
  /\ snap (Rect.y pr + Rect.h pr + GAP) <= snd pos
  /\ snapped (snd pos)
  /\ forall m mx my,
       m ∈ nxt -> id m <> "c" -> x m = Some mx -> y m = Some my ->
       Placement.rectsOverlapPx
         (Rect.mk (fst pos) (snd pos) (Size.w size) (Size.h size))
         (Rect.mk mx my (Size.w (Placement.sizeOrDefault exView (id m)))
                        (Size.h (Placement.sizeOrDefault exView (id m)))) = false.
Proof.
  apply (stackBelowAtX_clear exView [exRoot1Placed; exBubble] 360
           (Rect.mk 360 80 300 105) (Size.mk 310 100) "c").
  simpl. lia.
Defined.

(** A root and its reply. *)
Lemma exThread_acyclic : Acyclic [exRoot1Placed; exChild].
Proof.
  intros i. destruct (idToMsg [exRoot1Placed; exChild] !! i) as [m|] eqn:Hm;
    [|constructor].
  apply idToMsg_lookup_Some in Hm as [Hm _].
  assert (Hroot : Grounded (idToMsg [exRoot1Placed; exChild]) (Some exRoot1Placed))
    by (by apply grounded_root).
  apply elem_of_cons in Hm as [->|Hm]; [done|].
  apply list_elem_of_singleton in Hm as ->.
  apply (grounded_step _ exChild "r1"); [reflexivity | reflexivity |].
  by replace (idToMsg [exRoot1Placed; exChild] !! "r1") with (Some exRoot1Placed)
    by (by vm_compute).
Qed.

Lemma getTailIdForRoot_latest_witness :
  let time := fun _ : string => 0 in
  let msgs := [exRoot1Placed; exChild] in
  exists t, getTailIdForRoot time msgs "r1" = Some t
    /\ (((forall m, ~ MainOf msgs "r1" m) /\ t = "r1")
        \/ exists m, MainOf msgs "r1" m /\ id m = t
             /\ forall m', MainOf msgs "r1" m' ->
                  time (timestamp m') <= time (timestamp m)).
Proof.
  apply (getTailIdForRoot_latest (fun _ => 0) [exRoot1Placed; exChild] "r1").
  apply exThread_acyclic.
Defined.

Lemma buildAncestryChain_path_witness :
  let msgs := [exRoot1Placed; exChild] in
  exists chain, buildAncestryChain msgs "c" = Some chain
    /\ last chain = idToMsg msgs !! "c"
    /\ (forall i a b, chain !! i = Some a -> chain !! S i = Some b ->
          parentOf (idToMsg msgs) b a)
    /\ (forall r, head chain = Some r -> ~ exists r', parentOf (idToMsg msgs) r r').
Proof.
  apply (buildAncestryChain_path [exRoot1Placed; exChild] "c").
  apply exThread_acyclic.
Defined.

Lemma backfill_threadIds_witness :
  let msgs := [exRoot1Placed; exChild] in
  exists out, backfillThreadIds msgs = Some out
    /\ Forall2 (Backfilled msgs) msgs out
    /\ Forall (fun m' => is_Some (threadId m')) out.
Proof.
  apply (backfill_threadIds [exRoot1Placed; exChild]).
  apply exThread_acyclic.
Defined.

(** A message saved without a thread id. *)
Lemma deriveThreadId_getRootIdOf_witness :
  let m := mkMessage "n" None None false "local-user" "hello"
             "2024-01-01T00:00:00.000Z" None None in
  deriveThreadId [m] m = getRootIdOf [m] (id m).
Proof.
  apply (deriveThreadId_getRootIdOf
           [mkMessage "n" None None false "local-user" "hello"
              "2024-01-01T00:00:00.000Z" None None]
           (mkMessage "n" None None false "local-user" "hello"
              "2024-01-01T00:00:00.000Z" None None)).
  - vm_compute. reflexivity.
  - reflexivity.
Defined.
